(** * A parser-combinator engine (main.cpp): model and verified properties

    The combinators of main.cpp are higher-order functions that return
    closures of type [std::function<Result(string)>].  They are embedded
    here as Rocq functions over the same data: a [Result] record, a
    recursive [ResultItem] tree and parsers as functions from the input
    text to a [Result]. *)

From Stdlib Require Import String Ascii List Bool Arith ZArith NArith Lia.
Import ListNotations.

Local Open Scope string_scope.
Local Open Scope list_scope.

(** ** The Result / AST model *)

(** [struct ResultItem { string name; variant<string, vector<ResultItem>> value; }]:
    alternative 0 of the variant is [inl], alternative 1 is [inr]. *)
#[local] Unset Elimination Schemes.
Inductive ResultItem : Type :=
| Item (name : string) (value : string + list ResultItem).
#[local] Set Elimination Schemes.

Definition ResultMap := list ResultItem.

Inductive ResultType : Type := Success | Failure.

Record Result : Type := mkResult {
  status : ResultType;
  matched : string;
  rest : string;
  error : string;
  results : ResultMap
}.

Module ResultOps.

(** The four-argument constructor leaves [results] empty. *)
Definition make (status : ResultType) (matched rest error : string) : Result :=
  mkResult status matched rest error [].

Definition failure (error : string) : Result :=
  make Failure EmptyString EmptyString error.

Definition success (matched rest : string) : Result :=
  make Success matched rest EmptyString.

Definition isFailure (r : Result) : bool :=
  match status r with Failure => true | Success => false end.

Definition isSuccess (r : Result) : bool :=
  match status r with Success => true | Failure => false end.

Definition set_results (r : Result) (items : ResultMap) : Result :=
  mkResult (status r) (matched r) (rest r) (error r) items.

(** [void add(string name, string value)]: a leaf is pushed only when
    the text is not empty. *)
Definition add (r : Result) (name value : string) : Result :=
  if (0 <? String.length value)%nat
  then set_results r (results r ++ [Item name (inl value)])
  else r.

(** [void add(string name, ResultMap value)]: always pushed. *)
Definition addMap (r : Result) (name : string) (value : ResultMap) : Result :=
  set_results r (results r ++ [Item name (inr value)]).

(** [void combine(const Result&)]: pushes the other result's items in order. *)
Definition combine (r other : Result) : Result :=
  set_results r (fold_left (fun acc item => acc ++ [item]) (results other) (results r)).

End ResultOps.
Import ResultOps.

(** ** Parsers

    A [Parser] is a callable from the source text to a [Result].  The loops
    of [many] and [many1] are [while (true)] and a call through [refParser]
    may recurse without bound, so a call need not return.  A call therefore
    takes a bound [fuel] on the loop iterations and on the depth of
    dereferences it may spend, and yields [None] when the bound is
    exhausted before the call returns. *)
Definition Parser := nat -> string -> option Result.

Definition parseChar (ch : ascii) : Parser :=
  fun _ source =>
    match source with
    | EmptyString => Some (failure "End of imput stream.")
    | String firstChar tail =>
        if Ascii.eqb firstChar ch
        then Some (success (String firstChar EmptyString) tail)
        else Some (failure ("Expected '" ++ String ch ("' but got '" ++ String firstChar "'")))
    end.

Definition andThen (parser1 parser2 : Parser) : Parser :=
  fun fuel source =>
    match parser1 fuel source with
    | None => None
    | Some result1 =>
        if isFailure result1 then Some result1
        else
          match parser2 fuel (rest result1) with
          | None => None
          | Some result2 =>
              if isFailure result2 then Some result2
              else
                let result := success (matched result1 ++ matched result2) (rest result2) in
                let result := combine result result1 in
                let result := combine result result2 in
                Some result
          end
    end.

Definition orElse (parser1 parser2 : Parser) : Parser :=
  fun fuel source =>
    match parser1 fuel source with
    | None => None
    | Some result1 =>
        if isSuccess result1 then Some result1
        else parser2 fuel source
    end.

(** ** Building parsers from lists

    [reduce] reads [parsers[0]] without a bounds check.  Building a parser
    is therefore partial: [None] stands for a construction that has no
    defined result (the read past the end of an empty vector). *)
Definition Build (A : Type) := option A.

Definition bind {A B : Type} (m : Build A) (k : A -> Build B) : Build B :=
  match m with
  | Some a => k a
  | None => None
  end.

Notation "'let*' x ':=' m 'in' k" := (bind m (fun x => k))
  (at level 10, x name, m at level 100, k at level 200).

Definition reduce (parsers : list Parser) (reducer : Parser -> Parser -> Parser)
  : Build Parser :=
  match nth_error parsers 0 with
  | None => None
  | Some first => Some (fold_left reducer (skipn 1 parsers) first)
  end.

Definition mapWith {E : Type} (source : list E) (mapper : E -> Parser) : list Parser :=
  fold_left (fun result e => result ++ [mapper e]) source [].

Definition choice (parsers : list Parser) : Build Parser :=
  reduce parsers orElse.

Definition anyOf (value : string) : Build Parser :=
  choice (mapWith (list_ascii_of_string value) parseChar).

Definition parseString (value : string) : Build Parser :=
  reduce (mapWith (list_ascii_of_string value) parseChar) andThen.

Definition sequence (parsers : list Parser) : Build Parser :=
  reduce parsers andThen.

Definition nullParser : Parser :=
  fun _ source => Some (success EmptyString source).

Definition opt (parser : Parser) : Build Parser :=
  choice [parser; nullParser].

(** ** Repetition *)

(** The body of [many]'s [while (true)]: [n] bounds the iterations left. *)
Fixpoint many_loop (parser : Parser) (fuel n : nat)
    (matched_acc input : string) (items : ResultMap) : option Result :=
  match n with
  | 0 => None
  | S n' =>
      match parser fuel input with
      | None => None
      | Some result =>
          if isFailure result
          then Some (set_results (success matched_acc input) items)
          else
            many_loop parser fuel n'
              (matched_acc ++ matched result) (rest result)
              (if (0 <? List.length (results result))%nat
               then items ++ [Item "item" (inr (results result))]
               else items)
      end
  end.

Definition many (parser : Parser) : Parser :=
  fun fuel source => many_loop parser fuel fuel EmptyString source [].

Fixpoint many1_loop (parser : Parser) (fuel n : nat)
    (matched_acc input : string) : option Result :=
  match n with
  | 0 => None
  | S n' =>
      match parser fuel input with
      | None => None
      | Some result =>
          if isFailure result
          then
            if (String.length matched_acc =? 0)%nat then Some result
            else Some (success matched_acc input)
          else
            many1_loop parser fuel n' (matched_acc ++ matched result) (rest result)
      end
  end.

Definition many1 (parser : Parser) : Parser :=
  fun fuel source => many1_loop parser fuel fuel EmptyString source.

(** [takeLeft] as written: both calls go to [parser1]. *)
Definition takeLeft (parser1 parser2 : Parser) : Parser :=
  fun fuel source =>
    match parser1 fuel source with
    | None => None
    | Some result1 => parser1 fuel (rest result1)
    end.

Definition mapTo (parser : Parser) (name : string) : Parser :=
  fun fuel source =>
    match parser fuel source with
    | None => None
    | Some result =>
        if isSuccess result then
          if (List.length (results result) =? 0)%nat
          then Some (add result name (matched result))
          else
            let newResults := success (matched result) (rest result) in
            Some (addMap newResults name (results result))
        else Some result
    end.

Definition listOf (whiteSpace parser : Parser) (separator : ascii) : Build Parser :=
  let separatorParser := parseChar separator in
  let* first := sequence [whiteSpace; parser] in
  let* optFirst := opt first in
  let* group := sequence [whiteSpace; separatorParser; whiteSpace; parser] in
  sequence [mapTo optFirst "item"; many group].

(** [refParser] captures the slot by reference and calls whatever the slot
    holds when the parse runs; [reference] is that content. *)
Definition refParser (reference : Parser) : Parser :=
  fun fuel source => reference fuel source.

(** ** The character-range overload [anyOf(char start, char end)]

    [for (char ch = start; ch <= end; ch++)]: whether [char] is signed is
    implementation-defined, so the comparison takes the signedness as a
    parameter; [ch++] wraps around in both cases.  A loop that is still
    running after all 256 characters have been visited never exits (see
    [anyOfRange_loop_bound]), and then no parser is built. *)
Definition char_value (char_signed : bool) (c : ascii) : Z :=
  let n := Z.of_N (N_of_ascii c) in
  if char_signed && (128 <=? n)%Z then (n - 256)%Z else n.

(** The greatest value of a [char]. *)
Definition char_max (char_signed : bool) : Z :=
  if char_signed then 127%Z else 255%Z.

Definition char_succ (c : ascii) : ascii :=
  ascii_of_N ((N_of_ascii c + 1) mod 256).

Fixpoint anyOfRange_loop (char_signed : bool) (n : nat) (ch last : ascii)
    (parsers : list Parser) : option (list Parser) :=
  match n with
  | 0 => None
  | S n' =>
      if (char_value char_signed ch <=? char_value char_signed last)%Z
      then anyOfRange_loop char_signed n' (char_succ ch) last (parsers ++ [parseChar ch])
      else Some parsers
  end.

Definition anyOfRange (char_signed : bool) (start last : ascii) : Build Parser :=
  let* parsers := anyOfRange_loop char_signed 257 start last [] in
  choice parsers.

(** ** Recursive grammars: slots populated after construction

    A slot is a global [Parser] variable.  The grammar is built while the
    slots are still empty, every [refParser(slot)] keeping a reference, and
    the slots are assigned afterwards.  [rules content s] is the parser
    assigned to slot [s], written over the content [content] that the
    slots hold when a parse runs.  [populated rules s] is that content once
    the knot is tied: each dereference spends one unit of the bound. *)
Definition Slot := nat.
Definition Store := Slot -> Parser.

Fixpoint unroll (rules : Store -> Store) (depth : nat) : Store :=
  match depth with
  | 0 => fun _ _ _ => None
  | S d => rules (unroll rules d)
  end.

Definition populated (rules : Store -> Store) : Store :=
  fun slot fuel source => unroll rules fuel slot fuel source.

(** ** The parsers that the exposed constructors can build *)
Section Exposed.

Variable char_signed : bool.
Variable content : Store.

Inductive Exposed : Parser -> Prop :=
| Exposed_parseChar ch : Exposed (parseChar ch)
| Exposed_anyOf value q : anyOf value = Some q -> Exposed q
| Exposed_anyOfRange start last q :
    anyOfRange char_signed start last = Some q -> Exposed q
| Exposed_parseString value q : parseString value = Some q -> Exposed q
| Exposed_andThen p1 p2 : Exposed p1 -> Exposed p2 -> Exposed (andThen p1 p2)
| Exposed_sequence ps q : ExposedAll ps -> sequence ps = Some q -> Exposed q
| Exposed_orElse p1 p2 : Exposed p1 -> Exposed p2 -> Exposed (orElse p1 p2)
| Exposed_choice ps q : ExposedAll ps -> choice ps = Some q -> Exposed q
| Exposed_many p : Exposed p -> Exposed (many p)
| Exposed_many1 p : Exposed p -> Exposed (many1 p)
| Exposed_opt p q : Exposed p -> opt p = Some q -> Exposed q
| Exposed_nullParser : Exposed nullParser
| Exposed_mapTo p name : Exposed p -> Exposed (mapTo p name)
| Exposed_listOf ws p separator q :
    Exposed ws -> Exposed p -> listOf ws p separator = Some q -> Exposed q
| Exposed_refParser slot : Exposed (refParser (content slot))
with ExposedAll : list Parser -> Prop :=
| ExposedAll_nil : ExposedAll []
| ExposedAll_cons p ps : Exposed p -> ExposedAll ps -> ExposedAll (p :: ps).

End Exposed.

Scheme Exposed_mut := Minimality for Exposed Sort Prop
  with ExposedAll_mut := Minimality for ExposedAll Sort Prop.

(** ** Vocabulary for the statements *)

(** The parsers [ps] applied in order from [source], each to the [rest] of
    the one before, all succeed with the results [rs] and leave [final]. *)
Inductive seq_run (fuel : nat) : list Parser -> string -> list Result -> string -> Prop :=
| seq_run_nil source : seq_run fuel [] source [] source
| seq_run_cons p ps source r rs final :
    p fuel source = Some r -> isSuccess r = true ->
    seq_run fuel ps (rest r) rs final ->
    seq_run fuel (p :: ps) source (r :: rs) final.

(** Every parser of [ps] fails on [source]. *)
Definition all_fail (fuel : nat) (ps : list Parser) (source : string) : Prop :=
  Forall (fun p => exists f, p fuel source = Some f /\ isFailure f = true) ps.

(** Iterated application of one parser: from [source], [p] succeeds
    successively with the results [rs] and leaves [final]. *)
Inductive reaches (p : Parser) (fuel : nat) : string -> list Result -> string -> Prop :=
| reaches_nil source : reaches p fuel source [] source
| reaches_cons source r rs final :
    p fuel source = Some r -> isSuccess r = true ->
    reaches p fuel (rest r) rs final ->
    reaches p fuel source (r :: rs) final.

Definition concat_matched (rs : list Result) : string :=
  fold_right (fun r acc => (matched r ++ acc)%string) EmptyString rs.

(** The nodes [many] collects: one ["item"] per iteration whose [results]
    is not empty. *)
Definition items_of (rs : list Result) : ResultMap :=
  flat_map (fun r => match results r with
                     | [] => []
                     | _ :: _ => [Item "item" (inr (results r))]
                     end) rs.

(** The Result invariant of the data model, for one parser. *)
Definition respects (p : Parser) : Prop :=
  forall fuel source r,
    p fuel source = Some r -> isSuccess r = true ->
    (matched r ++ rest r)%string = source.

(** A call returns [r] when some bound is enough for it; it never returns
    when every bound is exhausted. *)
Definition returns (p : Parser) (source : string) (r : Result) : Prop :=
  exists fuel, p fuel source = Some r.

Definition never_returns (p : Parser) (source : string) : Prop :=
  forall fuel, p fuel source = None.


(** A parser written by hand, as a client of the library may pass to any
    combinator: it drops one leading blank and reports no matched text. *)
Definition skipBlank : Parser :=
  fun _ source =>
    match source with
    | String " " tail => Some (success EmptyString tail)
    | _ => Some (failure "blank expected")
    end.

(** The recursive rule [R := "(" R ")" | "a"] of the testable properties,
    with [R] kept in slot 0 and referred to through [refParser]. *)
Definition paren_rules : Store -> Store :=
  fun content _ =>
    orElse
      (andThen (parseChar "(") (andThen (refParser (content 0)) (parseChar ")")))
      (parseChar "a").

(** ** The lexical parsers of the example grammar

    [whiteSpace], [digit], [lower], [upper], [letter], [identifier] and
    [integer] are the globals that the grammar of main.cpp is assembled
    from.  The blanks of [" \t\r\n"] are the characters 32, 9, 13, 10. *)
Definition blanks : string :=
  String " " (String "009" (String "013" (String "010" EmptyString))).

Definition whiteSpace : Build Parser :=
  let* blank := anyOf blanks in
  opt (many blank).

Definition digit (char_signed : bool) : Build Parser :=
  anyOfRange char_signed "0" "9".

Definition lower (char_signed : bool) : Build Parser :=
  anyOfRange char_signed "a" "z".

Definition upper (char_signed : bool) : Build Parser :=
  anyOfRange char_signed "A" "Z".

Definition letter (char_signed : bool) : Build Parser :=
  let* l := lower char_signed in
  let* u := upper char_signed in
  choice [l; u].

Definition identifier (char_signed : bool) : Build Parser :=
  let* l := letter char_signed in
  let* d := digit char_signed in
  let* rest_char := choice [l; d] in
  sequence [l; many rest_char].

Definition integer (char_signed : bool) : Build Parser :=
  let* d := digit char_signed in
  Some (many1 d).

(** ** Further vocabulary: character classes and longest prefixes *)

(** What a parser that accepts one character of a class does: [member]
    decides the class, [expected] is the character its message names. *)
Definition char_class (member : ascii -> bool) (expected : ascii) : Parser :=
  fun _ source =>
    match source with
    | EmptyString => Some (failure "End of imput stream.")
    | String first tail =>
        if member first
        then Some (success (String first EmptyString) tail)
        else Some (failure ("Expected '" ++ String expected ("' but got '" ++ String first "'")))
    end.

Definition member_of (chars : list ascii) (c : ascii) : bool :=
  existsb (fun ch => Ascii.eqb c ch) chars.

Fixpoint take_while (member : ascii -> bool) (s : string) : string :=
  match s with
  | EmptyString => EmptyString
  | String c tail => if member c then String c (take_while member tail) else EmptyString
  end.

Fixpoint drop_while (member : ascii -> bool) (s : string) : string :=
  match s with
  | EmptyString => EmptyString
  | String c tail => if member c then drop_while member tail else s
  end.

Definition is_digit (c : ascii) : bool := member_of (list_ascii_of_string "0123456789") c.

Definition is_letter (c : ascii) : bool :=
  member_of (list_ascii_of_string "abcdefghijklmnopqrstuvwxyz") c
  || member_of (list_ascii_of_string "ABCDEFGHIJKLMNOPQRSTUVWXYZ") c.

Definition is_blank (c : ascii) : bool := member_of (list_ascii_of_string blanks) c.

(** * Properties *)

(** ** Basic facts about results and list construction *)

Lemma isFailure_isSuccess (r : Result) : isFailure r = negb (isSuccess r).
Proof. unfold isFailure, isSuccess. destruct (status r); reflexivity. Qed.

Lemma push_back_all {A : Type} (l acc : list A) :
  fold_left (fun acc item => acc ++ [item]) l acc = acc ++ l.
Proof.
  revert acc. induction l as [|x l IH]; intros acc; simpl.
  - now rewrite app_nil_r.
  - rewrite IH, <- app_assoc. reflexivity.
Qed.

Lemma combine_eq (r other : Result) :
  combine r other =
  mkResult (status r) (matched r) (rest r) (error r) (results r ++ results other).
Proof. unfold combine, set_results. now rewrite push_back_all. Qed.

Lemma mapWith_map {E : Type} (source : list E) (mapper : E -> Parser) :
  mapWith source mapper = map mapper source.
Proof.
  unfold mapWith.
  enough (H : forall acc, fold_left (fun result e => result ++ [mapper e]) source acc
                          = acc ++ map mapper source) by apply (H []).
  induction source as [|e l IH]; intros acc; simpl.
  - now rewrite app_nil_r.
  - rewrite IH, <- app_assoc. reflexivity.
Qed.

Lemma string_app_assoc (a b c : string) : ((a ++ b) ++ c = a ++ (b ++ c))%string.
Proof. induction a as [|x a IH]; simpl; [reflexivity | now rewrite IH]. Qed.

Lemma string_app_nil_r (a : string) : (a ++ EmptyString)%string = a.
Proof. induction a as [|x a IH]; simpl; [reflexivity | now rewrite IH]. Qed.

Lemma prefix_app (a b : string) : prefix a (a ++ b)%string = true.
Proof.
  induction a as [|x a IH]; simpl.
  - destruct b; reflexivity.
  - destruct (ascii_dec x x) as [_|N]; [exact IH | now elim N].
Qed.

Lemma reduce_cons (p : Parser) (ps : list Parser) (reducer : Parser -> Parser -> Parser) :
  reduce (p :: ps) reducer = Some (fold_left reducer ps p).
Proof. reflexivity. Qed.

(** ** The character literal *)

(** C7: for every character [c], [parseChar c] fails on the empty input
    with the end-of-input message; on an input whose first character is
    [c] it succeeds with [matched] the one-character string [c] and [rest]
    the input without its first character; on a non-empty input whose
    first character differs from [c] it fails with a message that names
    the expected and the actual character. *)
Theorem parseChar_cases (c : ascii) (fuel : nat) :
  parseChar c fuel EmptyString = Some (failure "End of imput stream.")
  /\ (forall tail,
        parseChar c fuel (String c tail)
        = Some (mkResult Success (String c EmptyString) tail EmptyString []))
  /\ (forall first tail, first <> c ->
        parseChar c fuel (String first tail)
        = Some (mkResult Failure EmptyString EmptyString
                  ("Expected '" ++ String c ("' but got '" ++ String first "'")) [])).
Proof.
  repeat split.
  - intros tail. simpl. now rewrite Ascii.eqb_refl.
  - intros first tail Hne. simpl.
    destruct (Ascii.eqb first c) eqn:E; [|reflexivity].
    apply Ascii.eqb_eq in E. contradiction.
Qed.

Lemma parseChar_cases_witness :
  parseChar "a" 0 "bc"
  = Some (mkResult Failure EmptyString EmptyString "Expected 'a' but got 'b'" []).
Proof.
  apply (proj2 (proj2 (parseChar_cases "a" 0)) "b"%char "c").
  discriminate.
Defined.

(** ** takeLeft *)

(** C8: [takeLeft p1 p2] applies [p1] to the input, applies [p1] again to
    the [rest] field of that first result whether or not it is a failure,
    and returns the second result; [p2] is never invoked, so the outcome
    is the same whatever [p2] is, even one that never returns. *)
Theorem takeLeft_runs_first_twice (p1 p2 : Parser) (fuel : nat) (source : string) :
  (forall result1, p1 fuel source = Some result1 ->
     takeLeft p1 p2 fuel source = p1 fuel (rest result1))
  /\ (p1 fuel source = None -> takeLeft p1 p2 fuel source = None)
  /\ (forall p2', takeLeft p1 p2' fuel source = takeLeft p1 p2 fuel source)
  /\ takeLeft p1 (fun _ _ => None) fuel source = takeLeft p1 p2 fuel source.
Proof.
  unfold takeLeft. repeat split.
  - intros result1 H. now rewrite H.
  - intros H. now rewrite H.
Qed.

Lemma takeLeft_runs_first_twice_witness :
  takeLeft (parseChar "a") (parseChar "b") 0 "ab"
  = Some (failure "Expected 'a' but got 'b'")
  /\ takeLeft (parseChar "a") (parseChar "b") 0 "xab"
     = Some (failure "End of imput stream.").
Proof.
  split.
  - apply (proj1 (takeLeft_runs_first_twice (parseChar "a") (parseChar "b") 0 "ab")
             (success "a" "b")).
    reflexivity.
  - apply (proj1 (takeLeft_runs_first_twice (parseChar "a") (parseChar "b") 0 "xab")
             (failure "Expected 'a' but got 'x'")).
    reflexivity.
Defined.

(** ** mapTo *)

(** C5: [mapTo p name] passes a failure of [p] through unchanged.  On a
    success of [p] with empty [results] it returns that success with the
    same [matched] and [rest], and its [results] is the single leaf
    [{name: matched}] when [matched] is not empty and is empty otherwise.
    On a success with non-empty [results] it returns a fresh success with
    the same [matched] and [rest] whose [results] is exactly the one
    structured node [{name: p.results}].  [mapTo (parseChar 'a') "x"] on
    ["a"] yields the single leaf [{"x": "a"}]. *)
Theorem mapTo_cases (p : Parser) (name : string) (fuel : nat) (source : string)
    (r : Result) (Hrun : p fuel source = Some r) :
  (isFailure r = true -> mapTo p name fuel source = Some r)
  /\ (isSuccess r = true -> results r = [] ->
        mapTo p name fuel source
        = Some (mkResult Success (matched r) (rest r) (error r)
                  (match matched r with
                   | EmptyString => []
                   | _ => [Item name (inl (matched r))]
                   end)))
  /\ (isSuccess r = true -> results r <> [] ->
        mapTo p name fuel source
        = Some (mkResult Success (matched r) (rest r) EmptyString
                  [Item name (inr (results r))]))
  /\ mapTo (parseChar "a") "x" fuel "a"
     = Some (mkResult Success "a" EmptyString EmptyString [Item "x" (inl "a")]).
Proof.
  unfold mapTo. rewrite Hrun. rewrite isFailure_isSuccess.
  repeat split.
  - intros H. apply negb_true_iff in H. now rewrite H.
  - intros Hs Hres. rewrite Hs, Hres. simpl.
    unfold add, set_results. rewrite Hres.
    unfold isSuccess in Hs.
    destruct r as [st m rs e res]; simpl in *.
    destruct st; [|discriminate].
    subst res. destruct m; reflexivity.
  - intros Hs Hres. rewrite Hs.
    destruct (results r) as [|i l] eqn:E; [contradiction|]. reflexivity.
Qed.

Lemma mapTo_cases_witness :
  mapTo (mapTo (parseChar "a") "x") "y" 0 "ab"
  = Some (mkResult Success "a" "b" EmptyString
            [Item "y" (inr [Item "x" (inl "a")])]).
Proof.
  apply (proj1 (proj2 (proj2
           (mapTo_cases (mapTo (parseChar "a") "x") "y" 0 "ab"
              (mkResult Success "a" "b" EmptyString [Item "x" (inl "a")])
              eq_refl)))).
  - reflexivity.
  - discriminate.
Defined.

(** ** Sequencing *)

Lemma andThen_first_fails (p1 p2 : Parser) fuel source r1 :
  p1 fuel source = Some r1 -> isFailure r1 = true ->
  andThen p1 p2 fuel source = Some r1.
Proof. intros H1 F1. unfold andThen. now rewrite H1, F1. Qed.

Lemma andThen_second_fails (p1 p2 : Parser) fuel source r1 r2 :
  p1 fuel source = Some r1 -> isSuccess r1 = true ->
  p2 fuel (rest r1) = Some r2 -> isFailure r2 = true ->
  andThen p1 p2 fuel source = Some r2.
Proof.
  intros H1 S1 H2 F2. unfold andThen.
  rewrite H1, isFailure_isSuccess, S1. simpl. now rewrite H2, F2.
Qed.

Lemma andThen_both_succeed (p1 p2 : Parser) fuel source r1 r2 :
  p1 fuel source = Some r1 -> isSuccess r1 = true ->
  p2 fuel (rest r1) = Some r2 -> isSuccess r2 = true ->
  andThen p1 p2 fuel source
  = Some (mkResult Success (matched r1 ++ matched r2) (rest r2) EmptyString
            (results r1 ++ results r2)).
Proof.
  intros H1 S1 H2 S2. unfold andThen.
  rewrite H1, isFailure_isSuccess, S1. simpl.
  rewrite H2, isFailure_isSuccess, S2. simpl.
  now rewrite !combine_eq.
Qed.

Lemma fold_andThen_failure fuel (ps : list Parser) :
  forall p0 source f,
    p0 fuel source = Some f -> isFailure f = true ->
    fold_left andThen ps p0 fuel source = Some f.
Proof.
  induction ps as [|p ps IH]; intros p0 source f H F; simpl; [exact H|].
  apply IH; [|exact F]. now apply andThen_first_fails.
Qed.

Lemma fold_andThen_success fuel (ps : list Parser) :
  forall p0 source r0 rs final,
    p0 fuel source = Some r0 -> isSuccess r0 = true ->
    seq_run fuel ps (rest r0) rs final ->
    exists r,
      fold_left andThen ps p0 fuel source = Some r
      /\ isSuccess r = true
      /\ matched r = (matched r0 ++ concat_matched rs)%string
      /\ rest r = final
      /\ results r = results r0 ++ flat_map results rs.
Proof.
  induction ps as [|p ps IH]; intros p0 source r0 rs final H0 S0 Hrun.
  - inversion Hrun; subst. exists r0. simpl.
    now rewrite string_app_nil_r, app_nil_r.
  - inversion Hrun as [|p' ps' src' r1 rs' final' Hp Hs Ht]; subst.
    pose proof (andThen_both_succeed p0 p fuel source r0 r1 H0 S0 Hp Hs) as Hand.
    destruct (IH (andThen p0 p) source _ rs' final Hand eq_refl Ht)
      as (r & Hr & Sr & Mr & Rr & Er).
    exists r. simpl in *.
    rewrite Hr, Mr, Er, string_app_assoc, <- app_assoc. auto.
Qed.

(** C1: [andThen p1 p2] runs [p1] on the input and returns its failure
    unchanged; when [p1] succeeds it runs [p2] on [p1]'s [rest] and returns
    [p2]'s failure unchanged; when both succeed it returns a Success with
    [matched = p1.matched ++ p2.matched], [rest = p2.rest] and
    [results = p1.results ++ p2.results].  [sequence] over a non-empty list
    is the left fold of [andThen]: it returns the first failure met while
    the parsers run in order on the progressively consumed remainder, and
    when all succeed a Success whose [matched] and [results] are the
    concatenations, in order, of those of the parsers, and whose [rest] is
    the last remainder. *)
Theorem andThen_sequence_spec (fuel : nat) (source : string) :
  (forall p1 p2 r1,
      p1 fuel source = Some r1 -> isFailure r1 = true ->
      andThen p1 p2 fuel source = Some r1)
  /\ (forall p1 p2 r1 r2,
      p1 fuel source = Some r1 -> isSuccess r1 = true ->
      p2 fuel (rest r1) = Some r2 -> isFailure r2 = true ->
      andThen p1 p2 fuel source = Some r2)
  /\ (forall p1 p2 r1 r2,
      p1 fuel source = Some r1 -> isSuccess r1 = true ->
      p2 fuel (rest r1) = Some r2 -> isSuccess r2 = true ->
      andThen p1 p2 fuel source
      = Some (mkResult Success (matched r1 ++ matched r2) (rest r2) EmptyString
                (results r1 ++ results r2)))
  /\ (forall p ps, sequence (p :: ps) = Some (fold_left andThen ps p))
  /\ (forall pre p post q rs remainder f,
      sequence (pre ++ p :: post) = Some q ->
      seq_run fuel pre source rs remainder ->
      p fuel remainder = Some f -> isFailure f = true ->
      q fuel source = Some f)
  /\ (forall ps q rs remainder,
      sequence ps = Some q ->
      seq_run fuel ps source rs remainder ->
      exists r,
        q fuel source = Some r
        /\ isSuccess r = true
        /\ matched r = concat_matched rs
        /\ rest r = remainder
        /\ results r = flat_map results rs).
Proof.
  split; [intros; now apply andThen_first_fails|].
  split; [intros; eapply andThen_second_fails; eassumption|].
  split; [intros; now apply andThen_both_succeed|].
  split; [reflexivity|].
  split.
  - intros pre p post q rs remainder f Hq Hrun Hp Hf.
    destruct pre as [|p0 pre]; simpl in Hq; unfold sequence in Hq;
      rewrite reduce_cons in Hq; injection Hq as <-.
    + inversion Hrun; subst. now apply fold_andThen_failure.
    + inversion Hrun as [|? ? ? r0 rs' ? H0 S0 Ht]; subst.
      rewrite fold_left_app. simpl.
      apply fold_andThen_failure; [|exact Hf].
      destruct (fold_andThen_success fuel pre p0 source r0 rs' remainder H0 S0 Ht)
        as (r & Hr & Sr & _ & Rr & _).
      apply andThen_second_fails with (r1 := r); [exact Hr | exact Sr | | exact Hf].
      now rewrite Rr.
  - intros ps q rs remainder Hq Hrun.
    destruct ps as [|p0 ps]; [discriminate|].
    unfold sequence in Hq. rewrite reduce_cons in Hq. injection Hq as <-.
    inversion Hrun as [|? ? ? r0 rs' ? H0 S0 Ht]; subst.
    destruct (fold_andThen_success fuel ps p0 source r0 rs' remainder H0 S0 Ht)
      as (r & Hr & Sr & Mr & Rr & Er).
    exists r. simpl. auto.
Qed.

Lemma andThen_sequence_spec_witness :
  exists q,
    sequence [parseChar "a"; mapTo (parseChar "b") "second"; parseChar "c"] = Some q
    /\ (exists r,
          q 0 "abcd" = Some r /\ isSuccess r = true /\ matched r = "abc"
          /\ rest r = "d" /\ results r = [Item "second" (inl "b")])
    /\ q 0 "abx" = Some (failure "Expected 'c' but got 'x'").
Proof.
  eexists. split; [reflexivity|]. split.
  - apply (proj2 (proj2 (proj2 (proj2 (proj2 (andThen_sequence_spec 0 "abcd")))))
             [parseChar "a"; mapTo (parseChar "b") "second"; parseChar "c"] _
             [success "a" "bcd";
              mkResult Success "b" "cd" EmptyString [Item "second" (inl "b")];
              success "c" "d"]
             "d" eq_refl).
    repeat (econstructor; try reflexivity).
  - apply (proj1 (proj2 (proj2 (proj2 (proj2 (andThen_sequence_spec 0 "abx")))))
             [parseChar "a"; mapTo (parseChar "b") "second"] (parseChar "c") [] _
             [success "a" "bx";
              mkResult Success "b" "x" EmptyString [Item "second" (inl "b")]]
             "x" (failure "Expected 'c' but got 'x'") eq_refl).
    + repeat (econstructor; try reflexivity).
    + reflexivity.
    + reflexivity.
Defined.

(** ** Ordered alternation *)

Lemma orElse_first_succeeds (p1 p2 : Parser) fuel source r1 :
  p1 fuel source = Some r1 -> isSuccess r1 = true ->
  orElse p1 p2 fuel source = Some r1.
Proof. intros H1 S1. unfold orElse. now rewrite H1, S1. Qed.

Lemma orElse_first_fails (p1 p2 : Parser) fuel source f1 :
  p1 fuel source = Some f1 -> isFailure f1 = true ->
  orElse p1 p2 fuel source = p2 fuel source.
Proof.
  intros H1 F1. unfold orElse. rewrite H1.
  rewrite isFailure_isSuccess in F1. apply negb_true_iff in F1. now rewrite F1.
Qed.

Lemma fold_orElse_success fuel (ps : list Parser) :
  forall p0 source r,
    p0 fuel source = Some r -> isSuccess r = true ->
    fold_left orElse ps p0 fuel source = Some r.
Proof.
  induction ps as [|p ps IH]; intros p0 source r H S; simpl; [exact H|].
  apply IH; [|exact S]. now apply orElse_first_succeeds.
Qed.

Lemma fold_orElse_all_fail fuel source (ps : list Parser) :
  forall p0 f0,
    p0 fuel source = Some f0 -> isFailure f0 = true ->
    all_fail fuel ps source ->
    exists f, fold_left orElse ps p0 fuel source = Some f /\ isFailure f = true.
Proof.
  induction ps as [|p ps IH]; intros p0 f0 H0 F0 Hall; simpl.
  - now exists f0.
  - inversion Hall as [|? ? (f & Hf & Ff) Hrest]; subst.
    apply (IH (orElse p0 p) f); [|exact Ff | exact Hrest].
    now rewrite (orElse_first_fails p0 p fuel source f0 H0 F0).
Qed.

Lemma choice_skips_failures fuel source (pre : list Parser) (p : Parser) (post : list Parser) q :
  choice (pre ++ p :: post) = Some q ->
  all_fail fuel pre source ->
  exists q', q = fold_left orElse post q' /\ q' fuel source = p fuel source.
Proof.
  intros Hq Hall.
  destruct pre as [|p0 pre]; simpl in Hq; unfold choice in Hq;
    rewrite reduce_cons in Hq; injection Hq as <-.
  - now exists p.
  - inversion Hall as [|? ? (f0 & H0 & F0) Hrest]; subst.
    rewrite fold_left_app. simpl.
    exists (orElse (fold_left orElse pre p0) p). split; [reflexivity|].
    destruct (fold_orElse_all_fail fuel source pre p0 f0 H0 F0 Hrest) as (f & Hf & Ff).
    now apply orElse_first_fails with (f1 := f).
Qed.

(** C2: [orElse p1 p2] runs [p1] and returns its result verbatim when it
    succeeds, whatever [p2] is ([p2] is not invoked); when [p1] fails it
    returns what [p2] does on the same original input, success or failure,
    and nothing of [p1]'s failure remains.  [choice] over a non-empty list
    is the left fold of [orElse]: it returns verbatim the result of the
    first alternative that succeeds on the original input, and when all
    alternatives before the last fail, the outcome of the last one. *)
Theorem orElse_choice_spec (fuel : nat) (source : string) :
  (forall p1 p2 r1,
      p1 fuel source = Some r1 -> isSuccess r1 = true ->
      orElse p1 p2 fuel source = Some r1)
  /\ (forall p1 p2 f1,
      p1 fuel source = Some f1 -> isFailure f1 = true ->
      orElse p1 p2 fuel source = p2 fuel source)
  /\ (forall p ps, choice (p :: ps) = Some (fold_left orElse ps p))
  /\ (forall pre p post q r,
      choice (pre ++ p :: post) = Some q ->
      all_fail fuel pre source ->
      p fuel source = Some r -> isSuccess r = true ->
      q fuel source = Some r)
  /\ (forall pre p q,
      choice (pre ++ [p]) = Some q ->
      all_fail fuel pre source ->
      q fuel source = p fuel source).
Proof.
  split; [intros; now apply orElse_first_succeeds|].
  split; [intros; eapply orElse_first_fails; eassumption|].
  split; [reflexivity|].
  split.
  - intros pre p post q r Hq Hall Hp Sp.
    destruct (choice_skips_failures fuel source pre p post q Hq Hall) as (q' & -> & Hq').
    apply fold_orElse_success; [|exact Sp]. now rewrite Hq'.
  - intros pre p q Hq Hall.
    destruct (choice_skips_failures fuel source pre p [] q Hq Hall) as (q' & -> & Hq').
    exact Hq'.
Qed.

Lemma orElse_choice_spec_witness :
  orElse (parseChar "a") (fun _ _ => None) 0 "ab" = Some (success "a" "b")
  /\ (exists q,
        choice [parseChar "a"; parseChar "b"; parseChar "c"] = Some q
        /\ q 0 "bz" = Some (success "b" "z"))
  /\ (exists q,
        choice [parseChar "a"; parseChar "b"] = Some q
        /\ q 0 "z" = Some (failure "Expected 'b' but got 'z'")).
Proof.
  split; [|split].
  - apply (proj1 (orElse_choice_spec 0 "ab")); reflexivity.
  - eexists. split; [reflexivity|].
    apply (proj1 (proj2 (proj2 (proj2 (orElse_choice_spec 0 "bz"))))
             [parseChar "a"] (parseChar "b") [parseChar "c"] _ (success "b" "z") eq_refl).
    + repeat constructor. eexists. split; reflexivity.
    + reflexivity.
    + reflexivity.
  - eexists. split; [reflexivity|].
    etransitivity.
    + apply (proj2 (proj2 (proj2 (proj2 (orElse_choice_spec 0 "z"))))
               [parseChar "a"] (parseChar "b") _ eq_refl).
      repeat constructor. eexists. split; reflexivity.
    + reflexivity.
Defined.

(** ** Repetition: the loops of [many] and [many1] *)

Lemma many_loop_stops (p : Parser) (fuel : nat) :
  forall n acc input items rs final f,
    reaches p fuel input rs final ->
    p fuel final = Some f -> isFailure f = true ->
    List.length rs < n ->
    many_loop p fuel n acc input items
    = Some (mkResult Success (acc ++ concat_matched rs) final EmptyString
              (items ++ items_of rs)).
Proof.
  induction n as [|n IH]; intros acc input items rs final f Hreach Hp Hf Hlen;
    [inversion Hlen|].
  inversion Hreach as [|? r rs' ? Hr Sr Hrest]; subst; simpl.
  - rewrite Hp, Hf. now rewrite string_app_nil_r, app_nil_r.
  - rewrite Hr, isFailure_isSuccess, Sr. simpl.
    rewrite (IH _ _ _ rs' final f Hrest Hp Hf) by (simpl in Hlen; lia).
    rewrite string_app_assoc.
    destruct (results r); simpl; [reflexivity | now rewrite <- app_assoc].
Qed.

Lemma many_loop_returns (p : Parser) (fuel : nat) :
  forall n acc input items r,
    many_loop p fuel n acc input items = Some r ->
    exists rs final f,
      reaches p fuel input rs final
      /\ p fuel final = Some f /\ isFailure f = true
      /\ List.length rs < n
      /\ r = mkResult Success (acc ++ concat_matched rs) final EmptyString
               (items ++ items_of rs).
Proof.
  induction n as [|n IH]; intros acc input items r Hrun; [discriminate|].
  simpl in Hrun.
  destruct (p fuel input) as [r1|] eqn:H1; [|discriminate].
  destruct (isFailure r1) eqn:F1.
  - injection Hrun as <-. exists [], input, r1.
    repeat split; try assumption; [constructor | simpl; lia |].
    simpl. now rewrite string_app_nil_r, app_nil_r.
  - apply IH in Hrun. destruct Hrun as (rs & final & f & Hreach & Hp & Hf & Hlen & ->).
    exists (r1 :: rs), final, f.
    assert (S1 : isSuccess r1 = true)
      by (rewrite isFailure_isSuccess in F1; now apply negb_false_iff in F1).
    repeat split; try assumption; [now constructor | simpl; lia |].
    simpl. rewrite string_app_assoc.
    destruct (results r1); simpl; [reflexivity | now rewrite <- app_assoc].
Qed.

Lemma many1_loop_stops (p : Parser) (fuel : nat) :
  forall n acc input rs final f,
    reaches p fuel input rs final ->
    p fuel final = Some f -> isFailure f = true ->
    List.length rs < n ->
    many1_loop p fuel n acc input
    = Some (match (acc ++ concat_matched rs)%string with
            | EmptyString => f
            | _ => mkResult Success (acc ++ concat_matched rs) final EmptyString []
            end).
Proof.
  induction n as [|n IH]; intros acc input rs final f Hreach Hp Hf Hlen;
    [inversion Hlen|].
  inversion Hreach as [|? r rs' ? Hr Sr Hrest]; subst; simpl.
  - rewrite Hp, Hf, string_app_nil_r. now destruct acc.
  - rewrite Hr, isFailure_isSuccess, Sr. simpl.
    rewrite (IH _ _ rs' final f Hrest Hp Hf) by (simpl in Hlen; lia).
    now rewrite string_app_assoc.
Qed.

Lemma many1_loop_returns (p : Parser) (fuel : nat) :
  forall n acc input r,
    many1_loop p fuel n acc input = Some r ->
    exists rs final f,
      reaches p fuel input rs final
      /\ p fuel final = Some f /\ isFailure f = true
      /\ List.length rs < n.
Proof.
  induction n as [|n IH]; intros acc input r Hrun; [discriminate|].
  simpl in Hrun.
  destruct (p fuel input) as [r1|] eqn:H1; [|discriminate].
  destruct (isFailure r1) eqn:F1.
  - exists [], input, r1. repeat split; try assumption; [constructor | simpl; lia].
  - apply IH in Hrun. destruct Hrun as (rs & final & f & Hreach & Hp & Hf & Hlen).
    exists (r1 :: rs), final, f.
    assert (S1 : isSuccess r1 = true)
      by (rewrite isFailure_isSuccess in F1; now apply negb_false_iff in F1).
    repeat split; try assumption; [now constructor | simpl; lia].
Qed.

(** A loop whose parser succeeds without moving at a position it reaches
    uses up any bound. *)
Lemma many_loop_stuck (p : Parser) (fuel : nat) :
  forall n acc input items rs final r,
    reaches p fuel input rs final ->
    p fuel final = Some r -> isSuccess r = true -> rest r = final ->
    many_loop p fuel n acc input items = None.
Proof.
  induction n as [|n IH]; intros acc input items rs final r Hreach Hp Sp Hrest;
    [reflexivity|].
  simpl. inversion Hreach as [|? r1 rs' ? Hr Sr Ht]; subst.
  - rewrite Hp, isFailure_isSuccess, Sp. simpl.
    now apply (IH _ _ _ [] (rest r) r); [constructor | ..].
  - rewrite Hr, isFailure_isSuccess, Sr. simpl.
    now apply (IH _ _ _ rs' (rest r) r).
Qed.

Lemma many1_loop_stuck (p : Parser) (fuel : nat) :
  forall n acc input rs final r,
    reaches p fuel input rs final ->
    p fuel final = Some r -> isSuccess r = true -> rest r = final ->
    many1_loop p fuel n acc input = None.
Proof.
  induction n as [|n IH]; intros acc input rs final r Hreach Hp Sp Hrest;
    [reflexivity|].
  simpl. inversion Hreach as [|? r1 rs' ? Hr Sr Ht]; subst.
  - rewrite Hp, isFailure_isSuccess, Sp. simpl.
    now apply (IH _ _ [] (rest r) r); [constructor | ..].
  - rewrite Hr, isFailure_isSuccess, Sr. simpl.
    now apply (IH _ _ rs' (rest r) r).
Qed.

(** C3, as stated, fails: it promises a Success for every parser and every
    input, but [many nullParser] returns nothing at all, on any input. *)
Lemma many_does_not_always_return :
  ~ (forall (p : Parser) (source : string),
        exists r, returns (many p) source r /\ isSuccess r = true).
Proof.
  intros H. destruct (H nullParser EmptyString) as (r & (fuel & Hr) & _).
  unfold many in Hr.
  rewrite (many_loop_stuck nullParser fuel fuel EmptyString EmptyString []
             [] EmptyString (success EmptyString EmptyString)) in Hr;
    [discriminate | constructor | reflexivity..].
Qed.

(** C3 (amended): [many p] never returns a Failure: whatever it returns is
    the Success built at the first failing application of [p].  Whenever
    iterated application of [p] from the input reaches a failing
    application after zero or more successes, [many p] returns Success
    with [matched] the concatenation of the successful iterations'
    [matched], [rest] the input left at that failure, and [results] one
    node labelled "item" per iteration whose [results] is not empty,
    holding those [results], in iteration order.  When [p] fails
    immediately the Success has [matched] empty and [rest] the input. *)
Theorem many_stops_at_first_failure (p : Parser) (fuel : nat) (source : string) :
  (forall r, many p fuel source = Some r ->
     isSuccess r = true
     /\ exists rs final f,
          reaches p fuel source rs final
          /\ p fuel final = Some f /\ isFailure f = true
          /\ r = mkResult Success (concat_matched rs) final EmptyString (items_of rs))
  /\ (forall rs final f,
        reaches p fuel source rs final ->
        p fuel final = Some f -> isFailure f = true ->
        List.length rs < fuel ->
        many p fuel source
        = Some (mkResult Success (concat_matched rs) final EmptyString (items_of rs)))
  /\ (forall f,
        p fuel source = Some f -> isFailure f = true -> 0 < fuel ->
        many p fuel source = Some (mkResult Success EmptyString source EmptyString [])).
Proof.
  split; [|split].
  - intros r Hr. apply many_loop_returns in Hr.
    destruct Hr as (rs & final & f & Hreach & Hp & Hf & _ & ->).
    split; [reflexivity|]. now exists rs, final, f.
  - intros rs final f Hreach Hp Hf Hlen. unfold many.
    now rewrite (many_loop_stops p fuel fuel EmptyString source [] rs final f).
  - intros f Hp Hf Hfuel. unfold many.
    now rewrite (many_loop_stops p fuel fuel EmptyString source [] [] source f);
      [ | constructor | ..].
Qed.

Lemma many_stops_at_first_failure_witness :
  many (mapTo (parseChar "a") "x") 3 "aab"
  = Some (mkResult Success "aa" "b" EmptyString
            [Item "item" (inr [Item "x" (inl "a")]);
             Item "item" (inr [Item "x" (inl "a")])])
  /\ many (parseChar "a") 1 "b" = Some (mkResult Success EmptyString "b" EmptyString []).
Proof.
  split.
  - apply (proj1 (proj2 (many_stops_at_first_failure (mapTo (parseChar "a") "x") 3 "aab"))
             [mkResult Success "a" "ab" EmptyString [Item "x" (inl "a")];
              mkResult Success "a" "b" EmptyString [Item "x" (inl "a")]]
             "b" (failure "Expected 'a' but got 'b'")).
    + repeat (econstructor; try reflexivity).
    + reflexivity.
    + reflexivity.
    + simpl. lia.
  - apply (proj2 (proj2 (many_stops_at_first_failure (parseChar "a") 1 "b"))
             (failure "Expected 'a' but got 'b'")).
    + reflexivity.
    + reflexivity.
    + lia.
Defined.

Lemma string_app_empty (a b : string) :
  (a ++ b)%string = EmptyString -> a = EmptyString /\ b = EmptyString.
Proof. destruct a; simpl; [auto | discriminate]. Qed.

(** Under the Result invariant, iterations that match nothing do not move. *)
Lemma reaches_nothing_matched (p : Parser) (fuel : nat) (Hp : respects p) :
  forall source rs final,
    reaches p fuel source rs final ->
    concat_matched rs = EmptyString -> final = source.
Proof.
  intros source rs final Hreach.
  induction Hreach as [|source r rs final Hr Sr _ IH]; intros Hempty; [reflexivity|].
  simpl in Hempty. apply string_app_empty in Hempty. destruct Hempty as [Hm Hrs].
  rewrite (IH Hrs). pose proof (Hp fuel source r Hr Sr) as Hinv.
  now rewrite Hm in Hinv.
Qed.

Lemma success_not_failure (r : Result) :
  isSuccess r = true -> isFailure r = true -> False.
Proof. rewrite isFailure_isSuccess. intros ->. discriminate. Qed.

Lemma reaches_matched_nonempty (p : Parser) (fuel : nat) (Hp : respects p)
    source r1 rs final f :
  reaches p fuel source (r1 :: rs) final ->
  p fuel final = Some f -> isFailure f = true ->
  concat_matched (r1 :: rs) <> EmptyString.
Proof.
  intros Hreach Hf Ff Hempty.
  pose proof (reaches_nothing_matched p fuel Hp _ _ _ Hreach Hempty) as ->.
  inversion Hreach as [|? ? ? ? Hr Sr _]; subst.
  rewrite Hr in Hf. injection Hf as <-. exact (success_not_failure r1 Sr Ff).
Qed.

(** C4, as stated, fails twice over.  The loop tells "no iteration has
    succeeded" by [matched.length() == 0], so a parser that succeeds
    without reporting matched text makes [many1] return a later failure
    although its first application succeeded; and when the first
    application succeeds but the iteration never fails, [many1] does not
    succeed: it does not return. *)
Lemma many1_not_decided_by_first_application :
  ~ (forall (p : Parser) (fuel : nat) (source : string) (r : Result),
        many1 p fuel source = Some r ->
        (isFailure r = true <-> exists f, p fuel source = Some f /\ isFailure f = true))
  /\ ~ (forall (p : Parser) (source : string) (r1 : Result),
          returns p source r1 -> isSuccess r1 = true ->
          exists r, returns (many1 p) source r /\ isSuccess r = true).
Proof.
  split.
  - intros H.
    destruct (H skipBlank 2 " x" (failure "blank expected") eq_refl) as [Hfail _].
    destruct (Hfail eq_refl) as (f & Hf & Ff).
    injection Hf as <-. discriminate.
  - intros H.
    destruct (H nullParser EmptyString (success EmptyString EmptyString)
                (ex_intro _ 0 eq_refl) eq_refl) as (r & (fuel & Hr) & _).
    unfold many1 in Hr.
    rewrite (many1_loop_stuck nullParser fuel fuel EmptyString EmptyString
               [] EmptyString (success EmptyString EmptyString)) in Hr;
      [discriminate | constructor | reflexivity..].
Qed.

(** C4 (amended): when the first application of [p] fails, [many1 p]
    returns that failure.  Whenever iterated application of [p] reaches a
    failing application, [many1 p] returns that failure if the text
    matched until then is empty, and otherwise a Success with [matched]
    the concatenation of the successful applications' [matched], [rest]
    the input left at the failure and an empty [results].  For a parser
    that respects the Result invariant ([matched ++ rest] is the input of
    each success), one or more successes followed by a failure always give
    that Success, and whenever [many1 p] returns, it returns a Failure if
    and only if the first application of [p] fails, that failure being the
    overall result; a Success it returns carries no [results]. *)
Theorem many1_spec (p : Parser) (fuel : nat) (source : string) :
  (forall f,
      p fuel source = Some f -> isFailure f = true -> 0 < fuel ->
      many1 p fuel source = Some f)
  /\ (forall rs final f,
      reaches p fuel source rs final ->
      p fuel final = Some f -> isFailure f = true ->
      List.length rs < fuel ->
      many1 p fuel source
      = Some (match concat_matched rs with
              | EmptyString => f
              | _ => mkResult Success (concat_matched rs) final EmptyString []
              end))
  /\ (respects p ->
      forall r1 rs final f,
        reaches p fuel source (r1 :: rs) final ->
        p fuel final = Some f -> isFailure f = true ->
        List.length (r1 :: rs) < fuel ->
        many1 p fuel source
        = Some (mkResult Success (concat_matched (r1 :: rs)) final EmptyString []))
  /\ (respects p ->
      forall r, many1 p fuel source = Some r ->
        (isFailure r = true <-> exists f, p fuel source = Some f /\ isFailure f = true)
        /\ (isFailure r = true -> p fuel source = Some r)
        /\ (isSuccess r = true ->
              results r = []
              /\ exists r1 rs final,
                   reaches p fuel source (r1 :: rs) final
                   /\ matched r = concat_matched (r1 :: rs) /\ rest r = final)).
Proof.
  assert (Hstop : forall rs final f,
      reaches p fuel source rs final ->
      p fuel final = Some f -> isFailure f = true ->
      List.length rs < fuel ->
      many1 p fuel source
      = Some (match concat_matched rs with
              | EmptyString => f
              | _ => mkResult Success (concat_matched rs) final EmptyString []
              end)).
  { intros rs final f Hreach Hf Ff Hlen. unfold many1.
    now rewrite (many1_loop_stops p fuel fuel EmptyString source rs final f). }
  assert (Hgood : respects p ->
      forall r1 rs final f,
        reaches p fuel source (r1 :: rs) final ->
        p fuel final = Some f -> isFailure f = true ->
        List.length (r1 :: rs) < fuel ->
        many1 p fuel source
        = Some (mkResult Success (concat_matched (r1 :: rs)) final EmptyString [])).
  { intros Hp r1 rs final f Hreach Hf Ff Hlen.
    rewrite (Hstop _ _ _ Hreach Hf Ff Hlen).
    pose proof (reaches_matched_nonempty p fuel Hp _ _ _ _ _ Hreach Hf Ff) as Hne.
    destruct (concat_matched (r1 :: rs)); [now elim Hne | reflexivity]. }
  split; [|split; [exact Hstop | split; [exact Hgood|]]].
  - intros f Hf Ff Hfuel.
    now rewrite (Hstop [] source f (reaches_nil p fuel source) Hf Ff Hfuel).
  - intros Hp r Hr.
    destruct (many1_loop_returns p fuel fuel EmptyString source r Hr)
      as (rs & final & f & Hreach & Hf & Ff & Hlen).
    destruct rs as [|r1 rs].
    + assert (Efinal : final = source) by now inversion Hreach.
      subst final.
      rewrite (Hstop [] source f (reaches_nil p fuel source) Hf Ff Hlen) in Hr.
      simpl in Hr. injection Hr as <-.
      split; [|split].
      * split; [intros _; now exists f | intros _; exact Ff].
      * intros _. exact Hf.
      * intros Sf. elim (success_not_failure f Sf Ff).
    + rewrite (Hgood Hp r1 rs final f Hreach Hf Ff Hlen) in Hr. injection Hr as <-.
      inversion Hreach as [|? ? ? ? H1 S1 _]; subst.
      split; [|split].
      * split; [discriminate|].
        intros (f' & Hf' & Ff'). rewrite H1 in Hf'. injection Hf' as <-.
        elim (success_not_failure r1 S1 Ff').
      * discriminate.
      * intros _. split; [reflexivity|]. now exists r1, rs, final.
Qed.

(** ** The Result invariant is kept by every exposed constructor *)

Lemma parseChar_respects (ch : ascii) : respects (parseChar ch).
Proof.
  intros fuel source r Hr Sr. destruct source as [|first tail]; simpl in Hr.
  - injection Hr as <-. discriminate.
  - destruct (Ascii.eqb first ch); injection Hr as <-; [reflexivity | discriminate].
Qed.

Lemma nullParser_respects : respects nullParser.
Proof. intros fuel source r Hr _. injection Hr as <-. reflexivity. Qed.

Lemma andThen_respects (p1 p2 : Parser) :
  respects p1 -> respects p2 -> respects (andThen p1 p2).
Proof.
  intros H1 H2 fuel source r Hr Sr. unfold andThen in Hr.
  destruct (p1 fuel source) as [r1|] eqn:E1; [|discriminate].
  destruct (isFailure r1) eqn:F1.
  { injection Hr as <-. elim (success_not_failure r1 Sr F1). }
  destruct (p2 fuel (rest r1)) as [r2|] eqn:E2; [|discriminate].
  destruct (isFailure r2) eqn:F2.
  { injection Hr as <-. elim (success_not_failure r2 Sr F2). }
  rewrite isFailure_isSuccess in F1, F2.
  apply negb_false_iff in F1. apply negb_false_iff in F2.
  injection Hr as <-. rewrite !combine_eq. simpl.
  rewrite string_app_assoc, (H2 fuel _ r2 E2 F2). exact (H1 fuel _ r1 E1 F1).
Qed.

Lemma orElse_respects (p1 p2 : Parser) :
  respects p1 -> respects p2 -> respects (orElse p1 p2).
Proof.
  intros H1 H2 fuel source r Hr Sr. unfold orElse in Hr.
  destruct (p1 fuel source) as [r1|] eqn:E1; [|discriminate].
  destruct (isSuccess r1) eqn:S1.
  - injection Hr as <-. exact (H1 fuel _ r1 E1 S1).
  - exact (H2 fuel _ r Hr Sr).
Qed.

Lemma reaches_respects (p : Parser) (fuel : nat) (Hp : respects p) :
  forall source rs final,
    reaches p fuel source rs final ->
    (concat_matched rs ++ final)%string = source.
Proof.
  intros source rs final Hreach.
  induction Hreach as [|source r rs final Hr Sr _ IH]; [reflexivity|].
  simpl. rewrite string_app_assoc, IH. exact (Hp fuel source r Hr Sr).
Qed.

Lemma many_respects (p : Parser) : respects p -> respects (many p).
Proof.
  intros Hp fuel source r Hr _. unfold many in Hr.
  apply many_loop_returns in Hr.
  destruct Hr as (rs & final & f & Hreach & _ & _ & _ & ->). simpl.
  exact (reaches_respects p fuel Hp source rs final Hreach).
Qed.

Lemma many1_respects (p : Parser) : respects p -> respects (many1 p).
Proof.
  intros Hp fuel source r Hr Sr. unfold many1 in Hr.
  destruct (many1_loop_returns p fuel fuel EmptyString source r Hr)
    as (rs & final & f & Hreach & Hf & Ff & Hlen).
  rewrite (many1_loop_stops p fuel fuel EmptyString source rs final f
             Hreach Hf Ff Hlen) in Hr.
  simpl in Hr.
  destruct (concat_matched rs) eqn:E; injection Hr as <-.
  - elim (success_not_failure f Sr Ff).
  - cbn [matched rest]. rewrite <- E.
    exact (reaches_respects p fuel Hp source rs final Hreach).
Qed.

Lemma mapTo_respects (p : Parser) (name : string) : respects p -> respects (mapTo p name).
Proof.
  intros Hp fuel source r Hr Sr. unfold mapTo in Hr.
  destruct (p fuel source) as [r0|] eqn:E0; [|discriminate].
  destruct (isSuccess r0) eqn:S0.
  - pose proof (Hp fuel source r0 E0 S0) as Hinv.
    destruct (List.length (results r0) =? 0)%nat; injection Hr as <-.
    + unfold add. destruct (0 <? String.length (matched r0))%nat; exact Hinv.
    + exact Hinv.
  - injection Hr as <-. rewrite S0 in Sr. discriminate.
Qed.

Lemma refParser_respects (reference : Parser) :
  respects reference -> respects (refParser reference).
Proof. intros H fuel source r Hr Sr. exact (H fuel source r Hr Sr). Qed.

Lemma fold_respects (reducer : Parser -> Parser -> Parser)
    (Hred : forall p1 p2, respects p1 -> respects p2 -> respects (reducer p1 p2))
    (ps : list Parser) :
  Forall respects ps -> forall p0, respects p0 -> respects (fold_left reducer ps p0).
Proof.
  induction 1 as [|p ps Hp _ IH]; intros p0 H0; simpl; [exact H0|].
  apply IH. now apply Hred.
Qed.

Lemma reduce_respects (reducer : Parser -> Parser -> Parser)
    (Hred : forall p1 p2, respects p1 -> respects p2 -> respects (reducer p1 p2))
    (ps : list Parser) (q : Parser) :
  Forall respects ps -> reduce ps reducer = Some q -> respects q.
Proof.
  intros Hall Hq. destruct ps as [|p ps]; [discriminate|].
  rewrite reduce_cons in Hq. injection Hq as <-.
  inversion Hall; subst. now apply fold_respects.
Qed.

Lemma mapWith_parseChar_respects (chars : list ascii) :
  Forall respects (mapWith chars parseChar).
Proof.
  rewrite mapWith_map. induction chars; simpl; constructor;
    [apply parseChar_respects | assumption].
Qed.

Lemma many1_spec_witness :
  many1 (parseChar "1") 3 "11x" = Some (mkResult Success "11" "x" EmptyString [])
  /\ many1 (parseChar "1") 3 "x" = Some (failure "Expected '1' but got 'x'").
Proof.
  split.
  - apply (proj1 (proj2 (proj2 (many1_spec (parseChar "1") 3 "11x")))
             (parseChar_respects "1")
             (success "1" "1x") [success "1" "x"] "x"
             (failure "Expected '1' but got 'x'")).
    + repeat (econstructor; try reflexivity).
    + reflexivity.
    + reflexivity.
    + simpl. lia.
  - apply (proj1 (many1_spec (parseChar "1") 3 "x")).
    + reflexivity.
    + reflexivity.
    + lia.
Defined.

(** ** Termination of the repetition loops *)




Lemma opt_eq (p : Parser) : opt p = Some (orElse p nullParser).
Proof. reflexivity. Qed.






(** ** The unchecked read of [parsers[0]] *)

(** C10: [reduce] reads [parsers[0]] with no check that the list is not
    empty.  On a non-empty list the read is in bounds and [reduce], hence
    [sequence], [choice] and, for a non-empty string, [parseString] and
    [anyOf], build a parser: the left fold of the reducer from the first
    element.  The lists that [opt] and [listOf] pass are never empty.  On
    the empty list (as for [parseString ""] and [anyOf ""]) the read is
    out of bounds and nothing is defined. *)
Theorem reduce_needs_nonempty :
  (forall reducer, nth_error (@nil Parser) 0 = None /\ reduce [] reducer = None)
  /\ (forall ps reducer, ps <> [] ->
        exists p rest_ps,
          ps = p :: rest_ps
          /\ nth_error ps 0 = Some p
          /\ reduce ps reducer = Some (fold_left reducer rest_ps p))
  /\ (forall ps, ps <> [] ->
        (exists q, sequence ps = Some q) /\ (exists q, choice ps = Some q))
  /\ (forall value, value <> EmptyString ->
        (exists q, parseString value = Some q) /\ (exists q, anyOf value = Some q))
  /\ (forall p, opt p = Some (orElse p nullParser))
  /\ (forall ws p separator, exists q, listOf ws p separator = Some q)
  /\ sequence [] = None /\ choice [] = None
  /\ parseString EmptyString = None /\ anyOf EmptyString = None.
Proof.
  assert (Hred : forall ps reducer, ps <> [] ->
            exists p rest_ps,
              ps = p :: rest_ps
              /\ nth_error ps 0 = Some p
              /\ reduce ps reducer = Some (fold_left reducer rest_ps p)).
  { intros [|p ps] reducer Hne; [now elim Hne|]. now exists p, ps. }
  repeat split; try reflexivity.
  - exact Hred.
  - destruct (Hred ps andThen H) as (p & l & _ & _ & Hq). eexists. exact Hq.
  - destruct (Hred ps orElse H) as (p & l & _ & _ & Hq). eexists. exact Hq.
  - destruct value as [|c value]; [now elim H|].
    unfold parseString. rewrite mapWith_map. simpl. eexists. reflexivity.
  - destruct value as [|c value]; [now elim H|].
    unfold anyOf, choice. rewrite mapWith_map. simpl. eexists. reflexivity.
  - eexists. reflexivity.
Qed.

Lemma reduce_needs_nonempty_witness :
  (exists q, parseString "if" = Some q) /\ (exists q, anyOf "if" = Some q).
Proof.
  apply (proj1 (proj2 (proj2 (proj2 reduce_needs_nonempty))) "if").
  discriminate.
Defined.

(** ** The loop of the character-range overload

    The bound of 257 iterations loses nothing: the loop exits within 256
    iterations unless [last] is the greatest [char], and then it never
    exits. *)

Lemma code_char_succ (ch : ascii) :
  N_of_ascii (char_succ ch) = ((N_of_ascii ch + 1) mod 256)%N.
Proof. unfold char_succ. apply N_ascii_embedding, N.mod_lt. discriminate. Qed.

Lemma char_value_range (char_signed : bool) (ch : ascii) :
  (char_max char_signed - 255 <= char_value char_signed ch <= char_max char_signed)%Z.
Proof.
  unfold char_value, char_max. pose proof (N_ascii_bounded ch) as Hb.
  destruct char_signed; simpl; [|lia].
  destruct (128 <=? Z.of_N (N_of_ascii ch))%Z eqn:E;
    [apply Z.leb_le in E | apply Z.leb_gt in E]; lia.
Qed.

Lemma char_value_succ (char_signed : bool) (ch : ascii) :
  (char_value char_signed ch < char_max char_signed)%Z ->
  char_value char_signed (char_succ ch) = (char_value char_signed ch + 1)%Z.
Proof.
  unfold char_value, char_max. rewrite code_char_succ.
  pose proof (N_ascii_bounded ch) as Hb.
  set (n := N_of_ascii ch) in *. clearbody n.
  assert (Hm : (n + 1 < 256 /\ (n + 1) mod 256 = n + 1
                \/ n = 255 /\ (n + 1) mod 256 = 0)%N).
  { destruct (N.eq_dec n 255) as [->|Hne]; [right; split; reflexivity | left].
    split; [lia | apply N.mod_small; lia]. }
  destruct char_signed; simpl; [|lia].
  destruct (128 <=? Z.of_N n)%Z eqn:E1;
    destruct (128 <=? Z.of_N ((n + 1) mod 256))%Z eqn:E2;
    try apply Z.leb_le in E1; try apply Z.leb_gt in E1;
    try apply Z.leb_le in E2; try apply Z.leb_gt in E2; lia.
Qed.

Lemma anyOfRange_loop_more (char_signed : bool) (last : ascii) :
  forall n m ch parsers ps,
    n <= m ->
    anyOfRange_loop char_signed n ch last parsers = Some ps ->
    anyOfRange_loop char_signed m ch last parsers = Some ps.
Proof.
  induction n as [|n IH]; intros m ch parsers ps Hle Hloop; [discriminate|].
  destruct m as [|m]; [lia|]. simpl in *.
  destruct (char_value char_signed ch <=? char_value char_signed last)%Z;
    [|exact Hloop].
  apply (IH m); [lia | exact Hloop].
Qed.

Lemma anyOfRange_loop_exits (char_signed : bool) (last : ascii)
    (Hlast : (char_value char_signed last < char_max char_signed)%Z) :
  forall n ch parsers,
    Z.to_nat (char_max char_signed - char_value char_signed ch) < n ->
    exists ps, anyOfRange_loop char_signed n ch last parsers = Some ps.
Proof.
  induction n as [|n IH]; intros ch parsers Hn; [inversion Hn|].
  simpl.
  destruct (char_value char_signed ch <=? char_value char_signed last)%Z eqn:E;
    [|eexists; reflexivity].
  apply Z.leb_le in E. apply IH.
  rewrite char_value_succ by lia. lia.
Qed.

Lemma anyOfRange_loop_bound (char_signed : bool) (start last : ascii) :
  ((char_value char_signed last < char_max char_signed)%Z ->
     exists ps,
       forall n, 257 <= n ->
         anyOfRange_loop char_signed n start last [] = Some ps)
  /\ (char_value char_signed last = char_max char_signed ->
       forall n parsers ch, anyOfRange_loop char_signed n ch last parsers = None).
Proof.
  split.
  - intros Hlast.
    destruct (anyOfRange_loop_exits char_signed last Hlast 257 start []) as (ps & Hps).
    { pose proof (char_value_range char_signed start). lia. }
    exists ps. intros n Hn. exact (anyOfRange_loop_more _ _ 257 n _ _ _ Hn Hps).
  - intros Hlast. induction n as [|n IH]; intros parsers ch; [reflexivity|].
    simpl. pose proof (char_value_range char_signed ch) as Hr.
    destruct (char_value char_signed ch <=? char_value char_signed last)%Z eqn:E;
      [apply IH|].
    apply Z.leb_gt in E. lia.
Qed.

(** ** Success consumes a prefix *)

Lemma anyOfRange_loop_respects (char_signed : bool) (last : ascii) :
  forall n ch parsers ps,
    Forall respects parsers ->
    anyOfRange_loop char_signed n ch last parsers = Some ps ->
    Forall respects ps.
Proof.
  induction n as [|n IH]; intros ch parsers ps Hall Hloop; [discriminate|].
  simpl in Hloop.
  destruct (char_value char_signed ch <=? char_value char_signed last)%Z.
  - apply (IH _ _ _ (proj2 (Forall_app _ _ _)
                       (conj Hall (Forall_cons _ (parseChar_respects ch) (Forall_nil _))))
             Hloop).
  - now injection Hloop as <-.
Qed.

Lemma sequence_respects (ps : list Parser) (q : Parser) :
  Forall respects ps -> sequence ps = Some q -> respects q.
Proof. apply reduce_respects. exact andThen_respects. Qed.

Lemma choice_respects (ps : list Parser) (q : Parser) :
  Forall respects ps -> choice ps = Some q -> respects q.
Proof. apply reduce_respects. exact orElse_respects. Qed.

Lemma listOf_respects (ws p : Parser) (separator : ascii) (q : Parser) :
  respects ws -> respects p -> listOf ws p separator = Some q -> respects q.
Proof.
  intros Hws Hp Hq. cbv [listOf bind sequence opt choice reduce nth_error skipn fold_left] in Hq.
  injection Hq as <-.
  pose proof (parseChar_respects separator) as Hsep.
  repeat first [ apply andThen_respects | apply orElse_respects
               | apply mapTo_respects | apply many_respects
               | apply nullParser_respects | assumption ].
Qed.

Lemma exposed_respects (char_signed : bool) (content : Store)
    (Hcontent : forall slot, respects (content slot)) :
  forall p, Exposed char_signed content p -> respects p.
Proof.
  apply (Exposed_mut char_signed content respects (Forall respects)).
  - exact parseChar_respects.
  - intros value q Hq. apply (choice_respects _ q (mapWith_parseChar_respects _) Hq).
  - intros start last q Hq. unfold anyOfRange, bind in Hq.
    destruct (anyOfRange_loop char_signed 257 start last []) as [ps|] eqn:E;
      [|discriminate].
    apply (choice_respects ps q); [|exact Hq].
    exact (anyOfRange_loop_respects char_signed last 257 start [] ps (Forall_nil _) E).
  - intros value q Hq.
    exact (reduce_respects andThen andThen_respects _ q
             (mapWith_parseChar_respects _) Hq).
  - intros p1 p2 _ H1 _ H2. now apply andThen_respects.
  - intros ps q _ Hall Hq. exact (sequence_respects ps q Hall Hq).
  - intros p1 p2 _ H1 _ H2. now apply orElse_respects.
  - intros ps q _ Hall Hq. exact (choice_respects ps q Hall Hq).
  - intros p _ Hp. now apply many_respects.
  - intros p _ Hp. now apply many1_respects.
  - intros p q _ Hp Hq. rewrite opt_eq in Hq. injection Hq as <-.
    apply orElse_respects; [exact Hp | exact nullParser_respects].
  - exact nullParser_respects.
  - intros p name _ Hp. now apply mapTo_respects.
  - intros ws p separator q _ Hws _ Hp Hq.
    exact (listOf_respects ws p separator q Hws Hp Hq).
  - intros slot. apply refParser_respects, Hcontent.
  - constructor.
  - intros p ps _ Hp _ Hps. now constructor.
Qed.

Lemma unroll_respects (char_signed : bool) (rules : Store -> Store)
    (Hrules : forall content slot, Exposed char_signed content (rules content slot)) :
  forall depth slot, respects (unroll rules depth slot).
Proof.
  induction depth as [|d IH]; intros slot; simpl.
  - intros fuel source r Hr. discriminate.
  - exact (exposed_respects char_signed (unroll rules d) IH _ (Hrules _ slot)).
Qed.

Lemma populated_respects (char_signed : bool) (rules : Store -> Store)
    (Hrules : forall content slot, Exposed char_signed content (rules content slot)) :
  forall slot, respects (populated rules slot).
Proof.
  intros slot fuel source r Hr Sr. unfold populated in Hr.
  exact (unroll_respects char_signed rules Hrules fuel slot fuel source r Hr Sr).
Qed.

(** C6: for every parser built from the exposed constructors and
    combinators ([parseChar], both [anyOf], [parseString], [andThen] and
    [sequence], [orElse] and [choice], [many], [many1], [opt],
    [nullParser], [mapTo], [listOf], and [refParser] of a slot populated
    with such a parser, recursive rules included) and every input,
    whenever the parser returns Success, [matched] is a prefix of the
    input and [matched ++ rest] is the input. *)
Theorem exposed_success_consumes_prefix (char_signed : bool) (rules : Store -> Store)
    (Hrules : forall content slot, Exposed char_signed content (rules content slot))
    (p : Parser) (Hp : Exposed char_signed (populated rules) p)
    (fuel : nat) (source : string) (r : Result) :
  p fuel source = Some r -> isSuccess r = true ->
  prefix (matched r) source = true /\ (matched r ++ rest r)%string = source.
Proof.
  intros Hr Sr.
  pose proof (exposed_respects char_signed (populated rules)
                (populated_respects char_signed rules Hrules) p Hp
                fuel source r Hr Sr) as Hinv.
  split; [|exact Hinv]. rewrite <- Hinv. apply prefix_app.
Qed.

Lemma paren_rules_exposed (char_signed : bool) (content : Store) (slot : Slot) :
  Exposed char_signed content (paren_rules content slot).
Proof. unfold paren_rules. repeat constructor. Qed.

Lemma exposed_success_consumes_prefix_witness :
  refParser (populated paren_rules 0) 4 "((a))b"
  = Some (mkResult Success "((a))" "b" EmptyString [])
  /\ prefix "((a))" "((a))b" = true
  /\ ("((a))" ++ "b")%string = "((a))b".
Proof.
  split; [reflexivity|].
  apply (exposed_success_consumes_prefix true paren_rules (paren_rules_exposed true)
           (refParser (populated paren_rules 0))
           (Exposed_refParser true (populated paren_rules) 0)
           4 "((a))b" (mkResult Success "((a))" "b" EmptyString [])).
  - reflexivity.
  - reflexivity.
Defined.

(** * Further properties of the combinators *)

(** ** Optionality *)

Lemma many_returns_success (p : Parser) (fuel : nat) (source : string) (r : Result) :
  many p fuel source = Some r -> isSuccess r = true.
Proof.
  intros Hr. apply many_loop_returns in Hr.
  destruct Hr as (rs & final & f & _ & _ & _ & _ & ->). reflexivity.
Qed.

Lemma orElse_nullParser_success (p : Parser) (fuel : nat) (source : string) (r : Result) :
  orElse p nullParser fuel source = Some r -> isSuccess r = true.
Proof.
  unfold orElse. intros Hr.
  destruct (p fuel source) as [r1|]; [|discriminate].
  destruct (isSuccess r1) eqn:S1; injection Hr as <-; [exact S1 | reflexivity].
Qed.

(** X1: [opt p] never returns a Failure.  It returns the success of [p]
    verbatim, and when [p] fails it returns a Success that matches nothing
    and leaves the whole input; it returns whenever [p] does. *)
Theorem opt_never_fails (p o : Parser) (fuel : nat) (source : string)
    (Ho : opt p = Some o) :
  (forall r, p fuel source = Some r -> isSuccess r = true -> o fuel source = Some r)
  /\ (forall f, p fuel source = Some f -> isFailure f = true ->
        o fuel source = Some (mkResult Success EmptyString source EmptyString []))
  /\ (forall r, o fuel source = Some r -> isSuccess r = true)
  /\ (forall r, p fuel source = Some r -> exists r', o fuel source = Some r').
Proof.
  rewrite opt_eq in Ho. injection Ho as <-.
  assert (H1 : forall r, p fuel source = Some r -> isSuccess r = true ->
                 orElse p nullParser fuel source = Some r)
    by (intros r Hr Sr; now apply orElse_first_succeeds).
  assert (H2 : forall f, p fuel source = Some f -> isFailure f = true ->
                 orElse p nullParser fuel source
                 = Some (mkResult Success EmptyString source EmptyString []))
    by (intros f Hf Ff; now rewrite (orElse_first_fails p nullParser fuel source f Hf Ff)).
  repeat split; try assumption.
  - intros r Hr. exact (orElse_nullParser_success p fuel source r Hr).
  - intros r Hr. destruct (isSuccess r) eqn:Sr.
    + eexists. exact (H1 r Hr Sr).
    + eexists. apply (H2 r Hr). rewrite isFailure_isSuccess, Sr. reflexivity.
Qed.

Lemma opt_never_fails_witness :
  orElse (parseChar "a") nullParser 0 "b"
  = Some (mkResult Success EmptyString "b" EmptyString []).
Proof.
  apply (proj1 (proj2 (opt_never_fails (parseChar "a") (orElse (parseChar "a") nullParser)
                         0 "b" eq_refl))
           (failure "Expected 'a' but got 'b'")); reflexivity.
Defined.

(** X2: wrapping [many p] in [opt] changes nothing: [opt (many p)] does on
    every input exactly what [many p] does, since [many p] never fails. *)
Theorem opt_many_is_many (p o : Parser) (Ho : opt (many p) = Some o)
    (fuel : nat) (source : string) :
  o fuel source = many p fuel source.
Proof.
  rewrite opt_eq in Ho. injection Ho as <-. unfold orElse.
  destruct (many p fuel source) as [r|] eqn:E; [|reflexivity].
  now rewrite (many_returns_success p fuel source r E).
Qed.

Lemma opt_many_is_many_witness :
  orElse (many (parseChar "a")) nullParser 3 "aab" = many (parseChar "a") 3 "aab".
Proof.
  exact (opt_many_is_many (parseChar "a") (orElse (many (parseChar "a")) nullParser)
           eq_refl 3 "aab").
Defined.

(** ** Composition laws *)

(** X3: sequencing is associative: [andThen (andThen p1 p2) p3] and
    [andThen p1 (andThen p2 p3)] give the same outcome on every input,
    failures, non-returning calls and the collected results included. *)
Theorem andThen_assoc (p1 p2 p3 : Parser) (fuel : nat) (source : string) :
  andThen (andThen p1 p2) p3 fuel source = andThen p1 (andThen p2 p3) fuel source.
Proof.
  unfold andThen.
  destruct (p1 fuel source) as [r1|]; [|reflexivity].
  destruct (isFailure r1) eqn:F1; [now rewrite F1|].
  destruct (p2 fuel (rest r1)) as [r2|]; [|reflexivity].
  destruct (isFailure r2) eqn:F2; [now rewrite F2|].
  rewrite !combine_eq. unfold success, make.
  cbn [isFailure status rest matched results error].
  destruct (p3 fuel (rest r2)) as [r3|]; [|reflexivity].
  destruct (isFailure r3) eqn:F3; [now rewrite F3|].
  rewrite !combine_eq. cbn [isFailure status rest matched results error app].
  now rewrite string_app_assoc, <- !app_assoc.
Qed.

(** X4: ordered alternation is associative: [orElse (orElse p1 p2) p3] and
    [orElse p1 (orElse p2 p3)] give the same outcome on every input. *)
Theorem orElse_assoc (p1 p2 p3 : Parser) (fuel : nat) (source : string) :
  orElse (orElse p1 p2) p3 fuel source = orElse p1 (orElse p2 p3) fuel source.
Proof.
  unfold orElse.
  destruct (p1 fuel source) as [r1|]; [|reflexivity].
  destruct (isSuccess r1) eqn:S1; [now rewrite S1 | reflexivity].
Qed.

(** ** How [many1] relates to [many] *)

(** X5: on every parser and input, a Success of [many1 p] has the [matched]
    and [rest] of what [many p] returns there, but none of its [results];
    and when [many p] returns a non-empty [matched], [many1 p] returns the
    Success with that [matched] and [rest]. *)
Theorem many1_agrees_with_many (p : Parser) (fuel : nat) (source : string) :
  (forall r, many1 p fuel source = Some r -> isSuccess r = true ->
     results r = []
     /\ exists r', many p fuel source = Some r'
                   /\ matched r' = matched r /\ rest r' = rest r)
  /\ (forall r', many p fuel source = Some r' -> matched r' <> EmptyString ->
        many1 p fuel source
        = Some (mkResult Success (matched r') (rest r') EmptyString [])).
Proof.
  split.
  - intros r Hr Sr.
    destruct (many1_loop_returns p fuel fuel EmptyString source r Hr)
      as (rs & final & f & Hreach & Hf & Ff & Hlen).
    unfold many1 in Hr.
    rewrite (many1_loop_stops p fuel fuel EmptyString source rs final f
               Hreach Hf Ff Hlen) in Hr.
    unfold many.
    rewrite (many_loop_stops p fuel fuel EmptyString source [] rs final f
               Hreach Hf Ff Hlen).
    cbn [String.append] in Hr.
    destruct (concat_matched rs) eqn:E; injection Hr as <-.
    + elim (success_not_failure f Sr Ff).
    + split; [reflexivity|]. eexists. split; [reflexivity|]. split; reflexivity.
  - intros r' Hr' Hne.
    apply many_loop_returns in Hr'.
    destruct Hr' as (rs & final & f & Hreach & Hf & Ff & Hlen & ->).
    cbn [matched rest String.append] in *.
    unfold many1.
    rewrite (many1_loop_stops p fuel fuel EmptyString source rs final f
               Hreach Hf Ff Hlen).
    cbn [String.append].
    destruct (concat_matched rs); [now elim Hne | reflexivity].
Qed.

Lemma many1_agrees_with_many_witness :
  many1 (mapTo (parseChar "a") "x") 3 "aab"
  = Some (mkResult Success "aa" "b" EmptyString []).
Proof.
  apply (proj2 (many1_agrees_with_many (mapTo (parseChar "a") "x") 3 "aab")
           (mkResult Success "aa" "b" EmptyString
              [Item "item" (inr [Item "x" (inl "a")]);
               Item "item" (inr [Item "x" (inl "a")])])).
  - reflexivity.
  - discriminate.
Defined.

(** ** Parsers that cannot fail *)

Lemma andThen_failure_origin (p1 p2 : Parser) (fuel : nat) (source : string) (f : Result) :
  andThen p1 p2 fuel source = Some f -> isFailure f = true ->
  p1 fuel source = Some f
  \/ exists r1, p1 fuel source = Some r1 /\ p2 fuel (rest r1) = Some f.
Proof.
  unfold andThen. intros Hf Ff.
  destruct (p1 fuel source) as [r1|]; [|discriminate].
  destruct (isFailure r1); [left; exact Hf|].
  right. exists r1. split; [reflexivity|].
  destruct (p2 fuel (rest r1)) as [r2|]; [|discriminate].
  destruct (isFailure r2); [exact Hf|].
  injection Hf as <-. rewrite !combine_eq in Ff. discriminate.
Qed.

Lemma mapTo_status (p : Parser) (name : string) (fuel : nat) (source : string) (r : Result) :
  mapTo p name fuel source = Some r ->
  exists r0, p fuel source = Some r0 /\ isSuccess r0 = isSuccess r.
Proof.
  unfold mapTo. intros Hr.
  destruct (p fuel source) as [r0|]; [|discriminate].
  exists r0. split; [reflexivity|].
  destruct (isSuccess r0) eqn:S0.
  - destruct (List.length (results r0) =? 0)%nat; injection Hr as <-; [|reflexivity].
    unfold add. destruct (0 <? String.length (matched r0))%nat; [|now rewrite S0].
    unfold isSuccess in *. simpl. destruct (status r0); [reflexivity | discriminate].
  - injection Hr as <-. now rewrite S0.
Qed.

(** X6: [listOf] never returns a Failure, whatever the whitespace parser,
    the element parser and the separator are: a missing first element and
    a repetition that stops at once both count as a Success. *)
Theorem listOf_never_fails (ws p : Parser) (separator : ascii) (q : Parser)
    (Hq : listOf ws p separator = Some q)
    (fuel : nat) (source : string) (r : Result) :
  q fuel source = Some r -> isSuccess r = true.
Proof.
  cbv [listOf bind sequence opt choice reduce nth_error skipn fold_left] in Hq.
  injection Hq as <-. intros Hr.
  destruct (isSuccess r) eqn:Sr; [reflexivity|]. exfalso.
  assert (Fr : isFailure r = true) by (rewrite isFailure_isSuccess, Sr; reflexivity).
  destruct (andThen_failure_origin _ _ fuel source r Hr Fr) as [Hfirst|(r1 & _ & Hmany)].
  - destruct (mapTo_status _ _ fuel source r Hfirst) as (r0 & H0 & S0).
    rewrite Sr in S0.
    pose proof (orElse_nullParser_success _ fuel source r0 H0) as S0'.
    congruence.
  - pose proof (many_returns_success _ fuel (rest r1) r Hmany). congruence.
Qed.

Lemma listOf_never_fails_witness :
  exists q r,
    listOf nullParser (parseChar "x") "," = Some q
    /\ q 3 "x,x;" = Some r /\ isSuccess r = true /\ matched r = "x,x" /\ rest r = ";".
Proof.
  eexists. eexists. split; [reflexivity|]. split; [reflexivity|].
  split; [|split; reflexivity].
  eapply (listOf_never_fails nullParser (parseChar "x") "," _ eq_refl 3 "x,x;").
  reflexivity.
Defined.

(** X7: repeating a parser that never fails never returns: if [q] returns
    no Failure on any input, [many q] and [many1 q] exhaust every bound on
    every input.  This is so for [many (many p)], [many1 (many p)] and for
    the repetition of any [opt p]. *)
Theorem repeating_never_failing_diverges (q : Parser)
    (Hq : forall fuel s r, q fuel s = Some r -> isSuccess r = true)
    (source : string) :
  never_returns (many q) source /\ never_returns (many1 q) source.
Proof.
  assert (Hno : forall fuel rs final f,
            reaches q fuel source rs final -> q fuel final = Some f ->
            isFailure f = true -> False).
  { intros fuel rs final f _ Hf Ff.
    exact (success_not_failure f (Hq fuel final f Hf) Ff). }
  split; intros fuel.
  - destruct (many q fuel source) as [r|] eqn:E; [|reflexivity].
    apply many_loop_returns in E.
    destruct E as (rs & final & f & Hreach & Hf & Ff & _).
    elim (Hno fuel rs final f Hreach Hf Ff).
  - destruct (many1 q fuel source) as [r|] eqn:E; [|reflexivity].
    apply many1_loop_returns in E.
    destruct E as (rs & final & f & Hreach & Hf & Ff & _).
    elim (Hno fuel rs final f Hreach Hf Ff).
Qed.

Lemma repeating_never_failing_diverges_witness :
  never_returns (many (many (parseChar "a"))) "aab"
  /\ never_returns (many1 (many (parseChar "a"))) "aab".
Proof.
  apply (repeating_never_failing_diverges (many (parseChar "a"))).
  intros fuel s r. apply many_returns_success.
Defined.

(** ** takeLeft and the Result invariant *)

(** X8: a Success of [takeLeft p1 p2] accounts only for the second
    application of [p1]: when [p1] keeps [matched ++ rest = input], the
    Success has [matched ++ rest] equal to the [rest] of the first
    application, so the text the first application consumed is in neither;
    [takeLeft (parseChar c) p2] therefore breaks the invariant. *)
Theorem takeLeft_forgets_first_match (p1 p2 : Parser) (Hp1 : respects p1)
    (fuel : nat) (source : string) (r1 r : Result) :
  p1 fuel source = Some r1 ->
  takeLeft p1 p2 fuel source = Some r -> isSuccess r = true ->
  (matched r ++ rest r)%string = rest r1
  /\ (isSuccess r1 = true -> matched r1 <> EmptyString ->
      (matched r ++ rest r)%string <> source).
Proof.
  intros H1 Hr Sr. unfold takeLeft in Hr. rewrite H1 in Hr.
  pose proof (Hp1 fuel (rest r1) r Hr Sr) as Hinv.
  split; [exact Hinv|].
  intros S1 Hne Heq. pose proof (Hp1 fuel source r1 H1 S1) as Hinv1.
  rewrite Hinv, <- Hinv1 in Heq.
  apply (f_equal String.length) in Heq.
  assert (Hlen : forall a b, String.length (a ++ b)%string
                             = String.length a + String.length b).
  { induction a as [|x a IH]; intros b; simpl; [reflexivity | now rewrite IH]. }
  rewrite Hlen in Heq.
  destruct (matched r1); [now elim Hne | simpl in Heq; lia].
Qed.

Lemma takeLeft_forgets_first_match_witness :
  takeLeft (parseChar "a") nullParser 0 "aab" = Some (success "a" "b")
  /\ ("a" ++ "b")%string <> "aab".
Proof.
  split; [reflexivity|].
  apply (proj2 (takeLeft_forgets_first_match (parseChar "a") nullParser
                  (parseChar_respects "a") 0 "aab"
                  (success "a" "ab") (success "a" "b") eq_refl eq_refl eq_refl)).
  - reflexivity.
  - discriminate.
Defined.

(** * Literal strings and character classes *)

(** ** Parsers that accept one character of a class *)

Lemma char_class_ext (m1 m2 : ascii -> bool) (expected : ascii)
    (Hm : forall c, m1 c = m2 c) (fuel : nat) (source : string) :
  char_class m1 expected fuel source = char_class m2 expected fuel source.
Proof. destruct source as [|c t]; simpl; [reflexivity | now rewrite Hm]. Qed.

Lemma orElse_class (p1 p2 : Parser) (m1 m2 : ascii -> bool) (e1 e2 : ascii)
    (H1 : forall fuel s, p1 fuel s = char_class m1 e1 fuel s)
    (H2 : forall fuel s, p2 fuel s = char_class m2 e2 fuel s)
    (fuel : nat) (source : string) :
  orElse p1 p2 fuel source = char_class (fun c => m1 c || m2 c) e2 fuel source.
Proof.
  unfold orElse. rewrite H1, H2.
  destruct source as [|c t]; simpl; [reflexivity|].
  destruct (m1 c); simpl; [reflexivity|]. destruct (m2 c); reflexivity.
Qed.

Lemma last_cons_default {A : Type} (l : list A) (a d : A) :
  List.last (a :: l) d = List.last l a.
Proof.
  revert a d. induction l as [|b l IH]; intros a d; [reflexivity|].
  change (List.last (b :: l) d = List.last (b :: l) a).
  now rewrite !IH.
Qed.

Lemma fold_orElse_class (chars : list ascii) :
  forall (p0 : Parser) (member : ascii -> bool) (expected : ascii),
    (forall fuel s, p0 fuel s = char_class member expected fuel s) ->
    forall fuel s,
      fold_left orElse (map parseChar chars) p0 fuel s
      = char_class (fun c => member c || member_of chars c)
          (List.last chars expected) fuel s.
Proof.
  induction chars as [|ch chars IH]; intros p0 member expected H0 fuel s.
  - simpl. rewrite H0. apply char_class_ext. intros c. now rewrite orb_false_r.
  - cbn [map fold_left].
    rewrite (IH (orElse p0 (parseChar ch)) (fun c => member c || Ascii.eqb c ch) ch).
    + rewrite last_cons_default. apply char_class_ext. intros c.
      unfold member_of. simpl. now rewrite orb_assoc.
    + intros fuel' s'.
      apply (orElse_class p0 (parseChar ch) member (fun c => Ascii.eqb c ch)
               expected ch H0).
      reflexivity.
Qed.

Lemma choice_chars_class (chars : list ascii) (q : Parser)
    (Hq : choice (map parseChar chars) = Some q) (fuel : nat) (s : string) :
  q fuel s = char_class (member_of chars) (List.last chars "000"%char) fuel s.
Proof.
  destruct chars as [|c0 chars]; [discriminate|].
  unfold choice in Hq. simpl map in Hq. rewrite reduce_cons in Hq. injection Hq as <-.
  rewrite (fold_orElse_class chars (parseChar c0) (fun c => Ascii.eqb c c0) c0)
    by reflexivity.
  now rewrite last_cons_default.
Qed.

Lemma member_of_In (chars : list ascii) (c : ascii) :
  member_of chars c = true <-> In c chars.
Proof.
  unfold member_of. rewrite existsb_exists. split.
  - intros (x & Hx & E). apply Ascii.eqb_eq in E. now subst.
  - intros H. exists c. split; [exact H | apply Ascii.eqb_refl].
Qed.

(** X9: [anyOf value], for a non-empty [value], accepts exactly the
    characters of [value]: on an input whose first character is one of
    them it succeeds with that character as [matched] and the remainder as
    [rest]; on the empty input it fails with the end-of-input message; on
    any other input it fails with the message of the last alternative
    only, which names the last character of [value] as the expected one. *)
Theorem anyOf_accepts_members (value : string) (q : Parser)
    (Hq : anyOf value = Some q) (fuel : nat) :
  q fuel EmptyString = Some (failure "End of imput stream.")
  /\ (forall c tail, In c (list_ascii_of_string value) ->
        q fuel (String c tail)
        = Some (mkResult Success (String c EmptyString) tail EmptyString []))
  /\ (forall c tail, ~ In c (list_ascii_of_string value) ->
        q fuel (String c tail)
        = Some (mkResult Failure EmptyString EmptyString
                  ("Expected '"
                   ++ String (List.last (list_ascii_of_string value) "000"%char)
                        ("' but got '" ++ String c "'")) [])).
Proof.
  unfold anyOf in Hq. rewrite mapWith_map in Hq.
  split; [|split].
  - now rewrite (choice_chars_class _ q Hq).
  - intros c tail Hin. rewrite (choice_chars_class _ q Hq). simpl.
    apply member_of_In in Hin. now rewrite Hin.
  - intros c tail Hnot. rewrite (choice_chars_class _ q Hq). simpl.
    destruct (member_of (list_ascii_of_string value) c) eqn:E; [|reflexivity].
    apply member_of_In in E. contradiction.
Qed.

Lemma anyOf_accepts_members_witness :
  exists q,
    anyOf "+-" = Some q
    /\ q 0 "-1" = Some (success "-" "1")
    /\ q 0 "*1" = Some (failure "Expected '-' but got '*'").
Proof.
  eexists. split; [reflexivity|]. split.
  - apply (proj1 (proj2 (anyOf_accepts_members "+-" _ eq_refl 0))).
    simpl. auto.
  - apply (proj2 (proj2 (anyOf_accepts_members "+-" _ eq_refl 0))).
    simpl. intros [H|[H|[]]]; discriminate.
Defined.

(** ** Repetition over a character class *)

Lemma many_loop_class (q : Parser) (member : ascii -> bool) (expected : ascii)
    (Hq : forall fuel s, q fuel s = char_class member expected fuel s) (fuel : nat) :
  forall n acc input,
    String.length input < n ->
    many_loop q fuel n acc input []
    = Some (mkResult Success (acc ++ take_while member input)
              (drop_while member input) EmptyString []).
Proof.
  induction n as [|n IH]; intros acc input Hlen; [inversion Hlen|].
  simpl. rewrite Hq. destruct input as [|c t]; simpl.
  - now rewrite string_app_nil_r.
  - destruct (member c) eqn:E; simpl.
    + rewrite IH by (simpl in Hlen; lia).
      now rewrite string_app_assoc.
    + now rewrite string_app_nil_r.
Qed.

Lemma many1_loop_class (q : Parser) (member : ascii -> bool) (expected : ascii)
    (Hq : forall fuel s, q fuel s = char_class member expected fuel s) (fuel : nat) :
  forall n acc input,
    String.length input < n ->
    many1_loop q fuel n acc input
    = match (acc ++ take_while member input)%string with
      | EmptyString => q fuel input
      | _ => Some (mkResult Success (acc ++ take_while member input)
                     (drop_while member input) EmptyString [])
      end.
Proof.
  induction n as [|n IH]; intros acc input Hlen; [inversion Hlen|].
  simpl. rewrite Hq. destruct input as [|c t]; simpl.
  - rewrite string_app_nil_r. now destruct acc.
  - destruct (member c) eqn:E; simpl.
    + rewrite IH by (simpl in Hlen; lia).
      rewrite string_app_assoc. simpl.
      destruct acc; reflexivity.
    + rewrite string_app_nil_r. now destruct acc.
Qed.

(** X10: over [anyOf value], [many] returns the longest prefix of the
    input made of characters of [value] as [matched] and what follows as
    [rest], with no [results]; [many1] returns the same Success when that
    prefix is not empty and otherwise the failure of [anyOf value] on the
    input.  A bound above the length of the input is enough. *)
Theorem many_anyOf_longest_prefix (value : string) (q : Parser)
    (Hq : anyOf value = Some q) (fuel : nat) (source : string)
    (Hfuel : String.length source < fuel) :
  many q fuel source
  = Some (mkResult Success
            (take_while (member_of (list_ascii_of_string value)) source)
            (drop_while (member_of (list_ascii_of_string value)) source)
            EmptyString [])
  /\ many1 q fuel source
     = match take_while (member_of (list_ascii_of_string value)) source with
       | EmptyString => q fuel source
       | _ => Some (mkResult Success
                      (take_while (member_of (list_ascii_of_string value)) source)
                      (drop_while (member_of (list_ascii_of_string value)) source)
                      EmptyString [])
       end.
Proof.
  unfold anyOf in Hq. rewrite mapWith_map in Hq.
  pose proof (choice_chars_class _ q Hq) as Hclass.
  split.
  - unfold many. now rewrite (many_loop_class q _ _ Hclass fuel fuel EmptyString source Hfuel).
  - unfold many1. now rewrite (many1_loop_class q _ _ Hclass fuel fuel EmptyString source Hfuel).
Qed.

Lemma many_anyOf_longest_prefix_witness :
  exists q,
    anyOf "ab" = Some q
    /\ many q 5 "abac" = Some (mkResult Success "aba" "c" EmptyString [])
    /\ many1 q 5 "cab" = Some (failure "Expected 'b' but got 'c'").
Proof.
  eexists. split; [reflexivity|].
  assert (H4 : String.length "abac" < 5) by (simpl; lia).
  assert (H3 : String.length "cab" < 5) by (simpl; lia).
  split.
  - exact (proj1 (many_anyOf_longest_prefix "ab" _ eq_refl 5 "abac" H4)).
  - exact (proj2 (many_anyOf_longest_prefix "ab" _ eq_refl 5 "cab" H3)).
Defined.

(** ** Literal strings *)

Lemma fold_andThen_literal (fuel : nat) (s : string) :
  forall (p0 : Parser) (pre : string),
    (forall tail, p0 fuel (pre ++ tail)%string
                  = Some (mkResult Success pre tail EmptyString [])) ->
    forall tail,
      fold_left andThen (map parseChar (list_ascii_of_string s)) p0 fuel
        (pre ++ s ++ tail)%string
      = Some (mkResult Success (pre ++ s) tail EmptyString []).
Proof.
  induction s as [|c s IH]; intros p0 pre H0 tail.
  - simpl. rewrite string_app_nil_r. apply H0.
  - cbn [list_ascii_of_string map fold_left].
    replace (pre ++ String c s ++ tail)%string
      with ((pre ++ String c EmptyString) ++ s ++ tail)%string
      by (now rewrite string_app_assoc).
    replace (pre ++ String c s)%string
      with ((pre ++ String c EmptyString) ++ s)%string
      by (now rewrite string_app_assoc).
    apply IH. intros tail'.
    rewrite string_app_assoc. simpl.
    rewrite (andThen_both_succeed p0 (parseChar c) fuel (pre ++ String c tail')
               (mkResult Success pre (String c tail') EmptyString [])
               (success (String c EmptyString) tail')); try reflexivity.
    + apply H0.
    + simpl. now rewrite Ascii.eqb_refl.
Qed.

Lemma fold_andThen_mismatch (fuel : nat) (mid : string) :
  forall (p0 : Parser) (pre : string) (c : ascii) (post remainder : string) (f : Result),
    (forall tail, p0 fuel (pre ++ tail)%string
                  = Some (mkResult Success pre tail EmptyString [])) ->
    parseChar c fuel remainder = Some f -> isFailure f = true ->
    fold_left andThen (map parseChar (list_ascii_of_string (mid ++ String c post))) p0
      fuel (pre ++ mid ++ remainder)%string
    = Some f.
Proof.
  induction mid as [|d mid IH]; intros p0 pre c post remainder f H0 Hf Ff.
  - cbn [String.append list_ascii_of_string map fold_left].
    apply fold_andThen_failure; [|exact Ff].
    apply (andThen_second_fails p0 (parseChar c) fuel (pre ++ remainder)
             (mkResult Success pre remainder EmptyString []) f);
      [apply H0 | reflexivity | exact Hf | exact Ff].
  - cbn [String.append list_ascii_of_string map fold_left].
    replace (pre ++ String d (mid ++ remainder))%string
      with ((pre ++ String d EmptyString) ++ mid ++ remainder)%string
      by (now rewrite string_app_assoc).
    apply IH; [|exact Hf | exact Ff].
    intros tail'. rewrite string_app_assoc. simpl.
    rewrite (andThen_both_succeed p0 (parseChar d) fuel (pre ++ String d tail')
               (mkResult Success pre (String d tail') EmptyString [])
               (success (String d EmptyString) tail')); try reflexivity.
    + apply H0.
    + simpl. now rewrite Ascii.eqb_refl.
Qed.

Lemma literal_or_mismatch (s : string) :
  forall input,
    (exists tail, input = (s ++ tail)%string)
    \/ (exists pre c post remainder f,
          s = (pre ++ String c post)%string
          /\ input = (pre ++ remainder)%string
          /\ (forall fuel, parseChar c fuel remainder = Some f)
          /\ isFailure f = true).
Proof.
  induction s as [|c s IH]; intros input.
  - left. now exists input.
  - destruct input as [|d t].
    + right. exists EmptyString, c, s, EmptyString, (failure "End of imput stream.").
      repeat split.
    + destruct (Ascii.eqb d c) eqn:E.
      * apply Ascii.eqb_eq in E. subst d.
        destruct (IH t) as [(tail & ->)|(pre & c' & post & remainder & f & -> & -> & Hf & Ff)].
        -- left. now exists tail.
        -- right. exists (String c pre), c', post, remainder, f. repeat split; assumption.
      * right. exists EmptyString, c, s, (String d t).
        eexists. repeat split.
        -- intros fuel. simpl. rewrite E. reflexivity.
        -- reflexivity.
Qed.

(** X11: [parseString value] returns on every input; it succeeds exactly
    on the inputs that start with [value], with [matched = value], [rest]
    the remainder and no [results]; on any other input it returns the
    failure of the first character of [value] that the input does not
    match (end of input, or expected versus actual character). *)
Theorem parseString_matches_prefix (value : string) (q : Parser)
    (Hq : parseString value = Some q) (fuel : nat) :
  (forall tail,
      q fuel (value ++ tail)%string
      = Some (mkResult Success value tail EmptyString []))
  /\ (forall pre c post remainder f,
        value = (pre ++ String c post)%string ->
        parseChar c fuel remainder = Some f -> isFailure f = true ->
        q fuel (pre ++ remainder)%string = Some f)
  /\ (forall input r,
        q fuel input = Some r -> isSuccess r = true ->
        input = (value ++ rest r)%string /\ matched r = value)
  /\ (forall input, exists r, q fuel input = Some r).
Proof.
  unfold parseString in Hq. rewrite mapWith_map in Hq.
  destruct value as [|c0 value]; [discriminate|].
  cbn [list_ascii_of_string map] in Hq. rewrite reduce_cons in Hq. injection Hq as <-.
  assert (Hhead : forall tail,
             parseChar c0 fuel (String c0 EmptyString ++ tail)%string
             = Some (mkResult Success (String c0 EmptyString) tail EmptyString [])).
  { intros tail. simpl. now rewrite Ascii.eqb_refl. }
  assert (Hok : forall tail,
             fold_left andThen (map parseChar (list_ascii_of_string value)) (parseChar c0)
               fuel (String c0 value ++ tail)%string
             = Some (mkResult Success (String c0 value) tail EmptyString [])).
  { intros tail.
    exact (fold_andThen_literal fuel value (parseChar c0) (String c0 EmptyString)
             Hhead tail). }
  assert (Hbad : forall pre c post remainder f,
             String c0 value = (pre ++ String c post)%string ->
             parseChar c fuel remainder = Some f -> isFailure f = true ->
             fold_left andThen (map parseChar (list_ascii_of_string value)) (parseChar c0)
               fuel (pre ++ remainder)%string = Some f).
  { intros pre c post remainder f Hsplit Hf Ff.
    destruct pre as [|d mid]; simpl in Hsplit; injection Hsplit as -> ->.
    - simpl. now apply fold_andThen_failure.
    - exact (fold_andThen_mismatch fuel mid (parseChar d) (String d EmptyString)
               c post remainder f Hhead Hf Ff). }
  split; [exact Hok | split; [exact Hbad | split]].
  - intros input r Hr Sr.
    destruct (literal_or_mismatch (String c0 value) input)
      as [(tail & ->)|(pre & c & post & remainder & f & Hsplit & -> & Hf & Ff)].
    + rewrite Hok in Hr. injection Hr as <-. split; reflexivity.
    + rewrite (Hbad pre c post remainder f Hsplit (Hf fuel) Ff) in Hr.
      injection Hr as <-. elim (success_not_failure f Sr Ff).
  - intros input.
    destruct (literal_or_mismatch (String c0 value) input)
      as [(tail & ->)|(pre & c & post & remainder & f & Hsplit & -> & Hf & Ff)].
    + eexists. apply Hok.
    + eexists. exact (Hbad pre c post remainder f Hsplit (Hf fuel) Ff).
Qed.

Lemma parseString_matches_prefix_witness :
  exists q,
    parseString "const" = Some q
    /\ q 0 "conx" = Some (failure "Expected 's' but got 'x'").
Proof.
  eexists. split; [reflexivity|].
  apply (proj1 (proj2 (parseString_matches_prefix "const" _ eq_refl 0))
           "con" "s"%char "t" "x" (failure "Expected 's' but got 'x'")); reflexivity.
Defined.

(** ** Character ranges *)

Lemma char_value_inj (char_signed : bool) (a b : ascii) :
  char_value char_signed a = char_value char_signed b -> a = b.
Proof.
  unfold char_value. intros H.
  pose proof (N_ascii_bounded a) as Ha. pose proof (N_ascii_bounded b) as Hb.
  rewrite <- (ascii_N_embedding a), <- (ascii_N_embedding b). f_equal.
  destruct char_signed; simpl in H; [|lia].
  destruct (128 <=? Z.of_N (N_of_ascii a))%Z eqn:Ea;
    destruct (128 <=? Z.of_N (N_of_ascii b))%Z eqn:Eb;
    try apply Z.leb_le in Ea; try apply Z.leb_gt in Ea;
    try apply Z.leb_le in Eb; try apply Z.leb_gt in Eb; lia.
Qed.

Lemma anyOfRange_loop_chars (char_signed : bool) (last : ascii)
    (Hlast : (char_value char_signed last < char_max char_signed)%Z) :
  forall n ch acc ps,
    anyOfRange_loop char_signed n ch last (map parseChar acc) = Some ps ->
    exists cs,
      ps = map parseChar (acc ++ cs)
      /\ (forall c, In c cs <->
            (char_value char_signed ch <= char_value char_signed c
               <= char_value char_signed last)%Z)
      /\ (forall d, cs <> [] -> List.last cs d = last).
Proof.
  induction n as [|n IH]; intros ch acc ps Hloop; [discriminate|].
  simpl in Hloop.
  destruct (char_value char_signed ch <=? char_value char_signed last)%Z eqn:E.
  - apply Z.leb_le in E.
    replace (map parseChar acc ++ [parseChar ch]) with (map parseChar (acc ++ [ch]))
      in Hloop by (now rewrite map_app).
    destruct (IH _ _ _ Hloop) as (cs & -> & Hin & Hlastc).
    rewrite char_value_succ in Hin by lia.
    exists (ch :: cs). split; [now rewrite <- app_assoc|]. split.
    + intros c. simpl. rewrite Hin. split.
      * intros [<-|H]; lia.
      * intros H.
        destruct (Z.eq_dec (char_value char_signed ch) (char_value char_signed c)) as [Heq|Hne].
        -- left. exact (char_value_inj char_signed ch c Heq).
        -- right. lia.
    + intros d _. rewrite last_cons_default.
      destruct cs as [|c1 cs].
      * simpl.
        destruct (Z.eq_dec (char_value char_signed ch) (char_value char_signed last))
          as [Heq|Hne]; [exact (char_value_inj char_signed ch last Heq)|].
        exfalso. assert (Hs : In (char_succ ch) []).
        { apply Hin. rewrite char_value_succ by lia. lia. }
        exact Hs.
      * apply Hlastc. discriminate.
  - apply Z.leb_gt in E. injection Hloop as <-. exists [].
    split; [now rewrite app_nil_r|]. split.
    + intros c. simpl. split; [contradiction | lia].
    + intros d H. now elim H.
Qed.

(** X12: [anyOf(start, end)] builds a parser exactly when [start <= end]
    as [char] values and [end] is not the greatest [char]: with
    [start > end] the list handed to [choice] is empty, and with [end] the
    greatest [char] the construction loop never exits.  The parser built
    accepts exactly the characters whose value lies between [start] and
    [end]; on any other character it fails with a message that names
    [end] as the expected character. *)
Theorem anyOfRange_accepts_range (char_signed : bool) (start last : ascii) :
  ((exists q, anyOfRange char_signed start last = Some q) <->
     (char_value char_signed start <= char_value char_signed last
        < char_max char_signed)%Z)
  /\ (forall q fuel,
        anyOfRange char_signed start last = Some q ->
        q fuel EmptyString = Some (failure "End of imput stream.")
        /\ (forall c tail,
              (char_value char_signed start <= char_value char_signed c
                 <= char_value char_signed last)%Z ->
              q fuel (String c tail)
              = Some (mkResult Success (String c EmptyString) tail EmptyString []))
        /\ (forall c tail,
              ~ (char_value char_signed start <= char_value char_signed c
                   <= char_value char_signed last)%Z ->
              q fuel (String c tail)
              = Some (mkResult Failure EmptyString EmptyString
                        ("Expected '" ++ String last ("' but got '" ++ String c "'")) []))).
Proof.
  assert (Hshape : forall q,
            anyOfRange char_signed start last = Some q ->
            (char_value char_signed start <= char_value char_signed last
               < char_max char_signed)%Z
            /\ exists cs,
                 choice (map parseChar cs) = Some q
                 /\ (forall c, In c cs <->
                       (char_value char_signed start <= char_value char_signed c
                          <= char_value char_signed last)%Z)
                 /\ List.last cs "000"%char = last).
  { intros q Hq. unfold anyOfRange, bind in Hq.
    destruct (anyOfRange_loop char_signed 257 start last []) as [ps|] eqn:E;
      [|discriminate].
    pose proof (char_value_range char_signed last) as Hr.
    destruct (Z.eq_dec (char_value char_signed last) (char_max char_signed)) as [Hmax|Hmax].
    { rewrite (proj2 (anyOfRange_loop_bound char_signed start last) Hmax) in E.
      discriminate. }
    assert (Hlast : (char_value char_signed last < char_max char_signed)%Z) by lia.
    destruct (anyOfRange_loop_chars char_signed last Hlast 257 start [] ps E)
      as (cs & -> & Hin & Hlastc).
    simpl app in Hq.
    destruct cs as [|c0 cs]; [discriminate|].
    split.
    - pose proof (proj1 (Hin c0) (or_introl eq_refl)). lia.
    - exists (c0 :: cs). split; [exact Hq|]. split; [exact Hin|].
      apply Hlastc. discriminate. }
  split; [split|].
  - intros (q & Hq). exact (proj1 (Hshape q Hq)).
  - intros [Hle Hlt].
    destruct (proj1 (anyOfRange_loop_bound char_signed start last) Hlt) as (ps & Hps).
    pose proof (Hps 257 (le_n 257)) as E.
    destruct (anyOfRange_loop_chars char_signed last Hlt 257 start [] ps E)
      as (cs & -> & Hin & _).
    unfold anyOfRange, bind. rewrite E. simpl app.
    destruct cs as [|c0 cs].
    + exfalso. apply (proj2 (Hin start)). lia.
    + eexists. reflexivity.
  - intros q fuel Hq.
    destruct (Hshape q Hq) as (_ & cs & Hchoice & Hin & Hlastc).
    split; [|split].
    + now rewrite (choice_chars_class cs q Hchoice).
    + intros c tail Hc. rewrite (choice_chars_class cs q Hchoice). simpl.
      apply Hin, member_of_In in Hc. now rewrite Hc.
    + intros c tail Hc. rewrite (choice_chars_class cs q Hchoice). simpl.
      rewrite Hlastc.
      destruct (member_of cs c) eqn:E; [|reflexivity].
      apply member_of_In, Hin in E. contradiction.
Qed.

Lemma anyOfRange_accepts_range_witness :
  exists q,
    anyOfRange true "0" "9" = Some q
    /\ q 0 "7x" = Some (success "7" "x")
    /\ q 0 "x7" = Some (failure "Expected '9' but got 'x'").
Proof.
  destruct (proj2 (proj1 (anyOfRange_accepts_range true "0" "9"))) as (q & Hq).
  { vm_compute. split; [discriminate | reflexivity]. }
  exists q. split; [exact Hq|].
  destruct (proj2 (anyOfRange_accepts_range true "0" "9") q 0 Hq) as (_ & Hin & Hout).
  split.
  - apply Hin. vm_compute. split; discriminate.
  - apply Hout. vm_compute. intros [_ H]. now apply H.
Defined.

(** * The lexical parsers of the example grammar *)

Lemma anyOf_class (value : string) (q : Parser) (Hq : anyOf value = Some q)
    (fuel : nat) (s : string) :
  q fuel s
  = char_class (member_of (list_ascii_of_string value))
      (List.last (list_ascii_of_string value) "000"%char) fuel s.
Proof.
  unfold anyOf in Hq. rewrite mapWith_map in Hq.
  exact (choice_chars_class _ q Hq fuel s).
Qed.

Lemma digit_is_anyOf (char_signed : bool) : digit char_signed = anyOf "0123456789".
Proof. destruct char_signed; reflexivity. Qed.

Lemma lower_is_anyOf (char_signed : bool) :
  lower char_signed = anyOf "abcdefghijklmnopqrstuvwxyz".
Proof. destruct char_signed; reflexivity. Qed.

Lemma upper_is_anyOf (char_signed : bool) :
  upper char_signed = anyOf "ABCDEFGHIJKLMNOPQRSTUVWXYZ".
Proof. destruct char_signed; reflexivity. Qed.

(** X13: [whiteSpace] is built, never fails, and consumes exactly the
    leading run of spaces, tabs, carriage returns and line feeds of the
    input, possibly none, with no [results]. *)
Theorem whiteSpace_strips_blanks :
  exists w,
    whiteSpace = Some w
    /\ forall fuel source,
         String.length source < fuel ->
         w fuel source
         = Some (mkResult Success (take_while is_blank source)
                   (drop_while is_blank source) EmptyString []).
Proof.
  destruct (anyOf blanks) as [blank|] eqn:Hblank; [|discriminate].
  exists (orElse (many blank) nullParser).
  split; [unfold whiteSpace, bind; now rewrite Hblank|].
  intros fuel source Hfuel. unfold orElse, many.
  rewrite (many_loop_class blank _ _ (anyOf_class blanks blank Hblank)
             fuel fuel EmptyString source Hfuel).
  reflexivity.
Qed.

Lemma whiteSpace_strips_blanks_witness :
  exists w,
    whiteSpace = Some w
    /\ w 6 (String " " (String "009" "x y"))
       = Some (mkResult Success (String " " (String "009" EmptyString)) "x y"
                 EmptyString []).
Proof.
  destruct whiteSpace_strips_blanks as (w & Hw & Hrun).
  exists w. split; [exact Hw|].
  apply (Hrun 6 (String " " (String "009" "x y"))). simpl. lia.
Defined.

(** X14: [integer] ([many1 digit]) is built whatever the signedness of
    [char]; it returns the longest prefix of decimal digits when the input
    starts with a digit, and otherwise fails: at the end of input with the
    end-of-input message, on another character with the message of the
    last alternative of [digit], which expects '9'. *)
Theorem integer_longest_digits (char_signed : bool) :
  exists q,
    integer char_signed = Some q
    /\ forall fuel source,
         String.length source < fuel ->
         q fuel source
         = Some (match source with
                 | EmptyString => failure "End of imput stream."
                 | String c _ =>
                     if is_digit c
                     then mkResult Success (take_while is_digit source)
                            (drop_while is_digit source) EmptyString []
                     else failure ("Expected '9' but got '" ++ String c "'")
                 end).
Proof.
  destruct (anyOf "0123456789") as [d|] eqn:Hd; [|discriminate].
  exists (many1 d).
  split; [unfold integer, bind; now rewrite digit_is_anyOf, Hd|].
  intros fuel source Hfuel. unfold many1.
  rewrite (many1_loop_class d _ _ (anyOf_class "0123456789" d Hd)
             fuel fuel EmptyString source Hfuel).
  rewrite (anyOf_class "0123456789" d Hd).
  unfold is_digit. set (m := member_of (list_ascii_of_string "0123456789")).
  destruct source as [|c t]; [reflexivity|].
  cbn [take_while drop_while char_class String.append]. destruct (m c); reflexivity.
Qed.

Lemma integer_longest_digits_witness :
  exists q,
    integer true = Some q
    /\ q 8 "100 y" = Some (mkResult Success "100" " y" EmptyString []).
Proof.
  destruct (integer_longest_digits true) as (q & Hq & Hrun).
  exists q. split; [exact Hq|].
  apply (Hrun 8 "100 y"). simpl. lia.
Defined.

(** X15: [identifier] is built whatever the signedness of [char]; on an
    input that starts with an ASCII letter it succeeds with that letter
    followed by the longest run of letters and digits as [matched]; on any
    other first character it fails with the message of the last
    alternative of [letter], which expects 'Z'; on the empty input it
    fails with the end-of-input message. *)
Theorem identifier_letter_then_alnum (char_signed : bool) :
  exists q,
    identifier char_signed = Some q
    /\ forall fuel source,
         String.length source < fuel ->
         q fuel source
         = Some (match source with
                 | EmptyString => failure "End of imput stream."
                 | String c tail =>
                     if is_letter c
                     then mkResult Success
                            (String c (take_while (fun x => is_letter x || is_digit x) tail))
                            (drop_while (fun x => is_letter x || is_digit x) tail)
                            EmptyString []
                     else failure ("Expected 'Z' but got '" ++ String c "'")
                 end).
Proof.
  destruct (anyOf "0123456789") as [d|] eqn:Hd; [|discriminate].
  destruct (anyOf "abcdefghijklmnopqrstuvwxyz") as [lo|] eqn:Hlo; [|discriminate].
  destruct (anyOf "ABCDEFGHIJKLMNOPQRSTUVWXYZ") as [up|] eqn:Hup; [|discriminate].
  exists (andThen (orElse lo up) (many (orElse (orElse lo up) d))).
  split.
  { unfold identifier, letter, bind.
    now rewrite lower_is_anyOf, upper_is_anyOf, digit_is_anyOf, Hlo, Hup, Hd. }
  assert (Hletter : forall fuel s,
             orElse lo up fuel s = char_class is_letter "Z" fuel s).
  { intros fuel s.
    exact (orElse_class lo up _ _ _ _
             (anyOf_class _ lo Hlo) (anyOf_class _ up Hup) fuel s). }
  assert (Halnum : forall fuel s,
             orElse (orElse lo up) d fuel s
             = char_class (fun x => is_letter x || is_digit x) "9" fuel s).
  { intros fuel s.
    exact (orElse_class (orElse lo up) d _ _ _ _
             Hletter (anyOf_class _ d Hd) fuel s). }
  intros fuel source Hfuel. unfold andThen. rewrite Hletter.
  destruct source as [|c tail]; [reflexivity|].
  cbn [char_class]. destruct (is_letter c); [|reflexivity].
  cbn [isFailure success make status rest matched]. unfold many.
  rewrite (many_loop_class _ _ _ Halnum fuel fuel EmptyString tail)
    by (simpl in Hfuel; lia).
  cbn [isFailure status]. now rewrite !combine_eq.
Qed.

Lemma identifier_letter_then_alnum_witness :
  exists q,
    identifier false = Some q
    /\ q 9 "x1 = 100" = Some (mkResult Success "x1" " = 100" EmptyString []).
Proof.
  destruct (identifier_letter_then_alnum false) as (q & Hq & Hrun).
  exists q. split; [exact Hq|].
  apply (Hrun 9 "x1 = 100"). simpl. lia.
Defined.

(** * Termination on an element that itself contains a loop

    [andThen (many (parseChar " ")) (parseChar ",")] is the shape of the
    elements the grammar repeats: blanks, skipped by a loop, then a
    mandatory character.  It returns on every input, with a bound that
    grows with the input, and each success consumes the comma. *)




